(** * The AI search path of [RestaurantController]

    A shallow embedding of [src/restaurant/restaurant.controller.ts]: the
    two handlers [aiSearch] and [aiImageSearch], the projection of the
    catalog into the flat records handed to the search engine, and the
    reshaping of the engine's matches into restaurants.

    Conventions of the model.
    - A JavaScript string is the sequence of its code units; the model
      covers the strings whose code units are below 256 ([string]).
    - Restaurant and dish identities are integers ([Z]).  A [Number] that
      the handlers copy without inspecting it (a price, a coordinate) is
      an element of an arbitrary type [Num].
    - The result of [parseInt] is [option Z], [None] standing for [NaN].
      The model is exact for identities that are safe integers: a digit
      string beyond [2^53] rounds to a [Number] of at least [2^53], which
      is the identity of no such restaurant.
    - [Number.prototype.toString] and the template literal [`${n}`] render
      an integer below [10^21] in absolute value by its decimal digits
      with a leading minus sign when negative: stdpp's [pretty].
    - Hence a statement that relies on [parseInt] reading back what
      [toString] wrote, or on which identities a match text selects,
      carries the hypothesis that the catalog's identities are safe
      integers ([JS.isSafeInteger]), the range in which the two
      definitions are the builtins. *)

From Stdlib Require Import ZArith Ascii.
From stdpp Require Import base numbers list option strings pretty gmap sets.

Local Open Scope Z_scope.

#[local] Set Warnings "-clear-no-such-hyp".

(** ** JavaScript primitives used by the handlers *)

Module JS.

(** [StrWhiteSpaceChar] restricted to code units below 256: TAB, LF, VT,
    FF, CR, SP and NBSP. *)
Definition is_whitespace (c : ascii) : bool :=
  let n := Z.of_N (N_of_ascii c) in
  ((9 <=? n) && (n <=? 13)) || (n =? 32) || (n =? 160).

Fixpoint trimStart (s : string) : string :=
  match s with
  | String c rest => if is_whitespace c then trimStart rest else s
  | EmptyString => s
  end.

(** The value of a character as a digit in the largest radix. *)
Definition digit_value (c : ascii) : option Z :=
  let n := Z.of_N (N_of_ascii c) in
  if (48 <=? n) && (n <=? 57) then Some (n - 48)
  else if (97 <=? n) && (n <=? 122) then Some (n - 87)
  else if (65 <=? n) && (n <=? 90) then Some (n - 55)
  else None.

Definition radix_digit (R : Z) (c : ascii) : option Z :=
  match digit_value c with
  | Some v => if v <? R then Some v else None
  | None => None
  end.

(** The longest prefix of radix-[R] digits, read as an integer; [acc] is
    [None] as long as no digit was read. *)
Fixpoint parse_digits (R : Z) (s : string) (acc : option Z) : option Z :=
  match s with
  | String c rest =>
      match radix_digit R c with
      | Some v => parse_digits R rest (Some (R * default 0 acc + v))
      | None => acc
      end
  | EmptyString => acc
  end.

(** [parseInt(string)] with no radix argument (ECMA-262, 19.2.5): skip
    white space, read a sign, strip a [0x] or [0X] prefix (radix 16,
    else radix 10), read the longest run of digits; [NaN] when that run
    is empty. *)
Definition parseInt (input : string) : option Z :=
  let trimmed := trimStart input in
  let '(sign, unsigned) :=
    match trimmed with
    | String "-" rest => (-1, rest)
    | String "+" rest => (1, rest)
    | _ => (1, trimmed)
    end in
  let '(R, digits) :=
    match unsigned with
    | String "0" (String "x" rest) => (16, rest)
    | String "0" (String "X" rest) => (16, rest)
    | _ => (10, unsigned)
    end in
  match parse_digits R digits None with
  | Some v => Some (sign * v)
  | None => None
  end.

(** [n.toString()] and [`${n}`] for an integer [n]: its decimal digits,
    which is the builtin's result for every integer below [10^21] in
    absolute value, the safe integers among them. *)
Definition toString (n : Z) : string := pretty n.

(** [Number.isSafeInteger(n)] for an integer [n]: the integers that a
    [Number] holds exactly and that [parseInt] and [toString] carry
    without rounding. *)
Definition isSafeInteger (n : Z) : Prop :=
  - (2 ^ 53 - 1) <= n <= 2 ^ 53 - 1.

(** [s.includes(c)] for a single character [c]. *)
Fixpoint includes (s : string) (c : ascii) : bool :=
  match s with
  | String c' rest => if decide (c' = c) then true else includes rest c
  | EmptyString => false
  end.

(** [x || d] for an optional string: [undefined] and the empty string
    are falsy. *)
Definition or_string (x : option string) (d : string) : string :=
  match x with
  | Some s => if decide (s = "") then d else s
  | None => d
  end.

(** [x || d] for an optional integer: [undefined] and [0] are falsy. *)
Definition or_number (x : option Z) (d : Z) : Z :=
  match x with
  | Some n => if decide (n = 0) then d else n
  | None => d
  end.

End JS.

(** ** Data model *)

(** Modelled from the spec: the entity and DTO declarations
    ([RestaurantResponseDto] and the dish it nests) are not part of the
    source at hand; the fields are those of section 3 of the
    specification.  The handlers read [id], [name], [dishes] of a
    restaurant and [name], [price] of a dish, and copy the rest. *)
Module Dish.
Record t (Num : Type) : Type := mk {
  id : Z;
  name : string;
  price : Num
}.
Arguments mk {Num} _ _ _.
Arguments id {Num} _.
Arguments name {Num} _.
Arguments price {Num} _.
End Dish.

Module Restaurant.
Record t (Num : Type) : Type := mk {
  id : Z;
  name : string;
  priceRange : Num;
  latitude : Num;
  longitude : Num;
  dishes : list (Dish.t Num)
}.
Arguments mk {Num} _ _ _ _ _ _.
Arguments id {Num} _.
Arguments name {Num} _.
Arguments priceRange {Num} _.
Arguments latitude {Num} _.
Arguments longitude {Num} _.
Arguments dishes {Num} _.

(** The object literal [{ ...r, dishes: filteredDishes }]. *)
Definition with_dishes {Num} (r : t Num) (ds : list (Dish.t Num)) : t Num :=
  mk (id r) (name r) (priceRange r) (latitude r) (longitude r) ds.
End Restaurant.

(** The flat record built for the engine, one per dish. *)
Module DishRecord.
Record t (Num : Type) : Type := mk {
  restaurant_id : string;
  restaurant_name : string;
  dish_name : string;
  dish_price : Num
}.
Arguments mk {Num} _ _ _ _.
Arguments restaurant_id {Num} _.
Arguments restaurant_name {Num} _.
Arguments dish_name {Num} _.
Arguments dish_price {Num} _.
End DishRecord.

(** Modelled from the spec: the engine ([SupraMultiSearchEngine]) is not
    part of the source at hand.  Its response has a status field and, when
    successful, data holding the list [results] of matches, each with a
    restaurant identity (text) and a dish name. *)
Module SearchResult.
Record t : Type := mk {
  restaurant_id : string;
  dish_name : string
}.
End SearchResult.

Module AiResponse.
Record data_t : Type := mk_data {
  results : list SearchResult.t
}.
Record t : Type := mk {
  status : string;
  data : option data_t
}.
End AiResponse.

(** ** The Catalog Projector and the reshaping of matches *)

Section Reconciliation.
Context {Num : Type}.

(** [restaurants.flatMap((r) => r.dishes.map((d) => ({ ... })))] *)
Definition dishList (restaurants : list (Restaurant.t Num))
  : list (DishRecord.t Num) :=
  flat_map
    (fun r =>
       (fun d =>
          DishRecord.mk (JS.toString (Restaurant.id r))
            (Restaurant.name r) (Dish.name d) (Dish.price d))
         <$> Restaurant.dishes r)
    restaurants.

(** The template literal [`${a}-${b}`]. *)
Definition dish_key (a b : string) : string := a +:+ "-" +:+ b.

(** [new Set(results.map((r) => parseInt(r.restaurant_id)))] *)
Definition matchedRestaurantIds (results : list SearchResult.t)
  : gset (option Z) :=
  list_to_set
    ((fun r => JS.parseInt (SearchResult.restaurant_id r)) <$> results).

(** [new Set(results.map((r) => `${r.restaurant_id}-${r.dish_name}`))] *)
Definition matchedDishes (results : list SearchResult.t) : gset string :=
  list_to_set
    ((fun r => dish_key (SearchResult.restaurant_id r)
                 (SearchResult.dish_name r)) <$> results).

(** [matchedRestaurantIds.has(r.id)]; the identity is a number that is
    not [NaN]. *)
Definition has_id (ids : gset (option Z)) (n : Z) : bool :=
  bool_decide (Some n ∈ ids).

(** [matchedDishes.has(k)] *)
Definition has_key (keys : gset string) (k : string) : bool :=
  bool_decide (k ∈ keys).

(** [r.dishes.filter((d) => matchedDishes.has(`${r.id}-${d.name}`))] *)
Definition filteredDishes (keys : gset string) (r : Restaurant.t Num)
  : list (Dish.t Num) :=
  filter
    (fun d => has_key keys
                (dish_key (JS.toString (Restaurant.id r)) (Dish.name d)))
    (Restaurant.dishes r).

(** [restaurants.filter(...).map((r) => ({ ...r, dishes: ... }))] *)
Definition matchedRestaurants (restaurants : list (Restaurant.t Num))
    (results : list SearchResult.t) : list (Restaurant.t Num) :=
  let ids := matchedRestaurantIds results in
  let keys := matchedDishes results in
  (fun r => Restaurant.with_dishes r (filteredDishes keys r))
    <$> filter (fun r => has_id ids (Restaurant.id r)) restaurants.

(** The dishes of a catalog with their owners, in catalog order: what
    the projector is to render, one record each. *)
Definition owned_dishes (restaurants : list (Restaurant.t Num))
  : list (Restaurant.t Num * Dish.t Num) :=
  flat_map (fun r => (fun d => (r, d)) <$> Restaurant.dishes r) restaurants.

(** The record of a dish [d] of a restaurant [r]. *)
Definition renders (rec : DishRecord.t Num)
    (rd : Restaurant.t Num * Dish.t Num) : Prop :=
  DishRecord.restaurant_id rec = JS.toString (Restaurant.id (fst rd))
  ∧ DishRecord.restaurant_name rec = Restaurant.name (fst rd)
  ∧ DishRecord.dish_name rec = Dish.name (snd rd)
  ∧ DishRecord.dish_price rec = Dish.price (snd rd).

(** Modelled from the spec: [plainToInstance(RestaurantResponseDto, _)]
    of class-transformer, whose target class is not part of the source
    at hand; the result is the reshaped restaurant list itself. *)
Definition plainToInstance (rs : list (Restaurant.t Num))
  : list (Restaurant.t Num) := rs.

(** Lines 74-100 of [aiSearch], which are lines 141-167 of
    [aiImageSearch]: what the handler returns once the engine has
    answered.  The guard [status !== 'success' || !data] returns the
    empty list; past it, [data] is there and the status is [success]. *)
Definition reconcile (restaurants : list (Restaurant.t Num))
    (aiResponse : AiResponse.t) : list (Restaurant.t Num) :=
  match AiResponse.data aiResponse with
  | Some data =>
      if decide (AiResponse.status aiResponse = "success")
      then plainToInstance
             (matchedRestaurants restaurants (AiResponse.results data))
      else []
  | None => []
  end.

End Reconciliation.

(** ** Effects: exceptions, the file system, the collaborators *)

Inductive Exception : Type :=
| BadRequestException (message : string)
| Error (message : string).

Inductive Outcome (A : Type) : Type :=
| Return (a : A)
| Throw (e : Exception).
Arguments Return {A} _.
Arguments Throw {A} _.

(** Request bodies and the uploaded file.  Modelled from the spec: the
    DTO declarations are not part of the source at hand; the text search
    carries a query text, the image search an optional text, an optional
    preference string and an optional result-count limit. *)
Module AiRestaurantSearchDto.
Record t : Type := mk { text : string }.
End AiRestaurantSearchDto.

Module ImageSearchDto.
Record t : Type := mk {
  text : option string;
  preferences : option string;
  limit : option Z
}.
End ImageSearchDto.

Module MulterFile.
Record t : Type := mk {
  originalname : string;
  buffer : list Byte.byte
}.
End MulterFile.

Section Handlers.
Context {Num : Type}.

(** The calls a handler makes to its collaborators, in order.  The
    assignment [engine['restaurantData'] = dishList] is carried by the
    first argument of the search call that follows it. *)
Inductive Call : Type :=
| new_SupraSearchEngine
| findAll_call
| writeFileSync_call (path : string) (data : list Byte.byte)
| search_call (restaurantData : list (DishRecord.t Num)) (text : string)
    (imagePath preferences : option string) (limit : option Z)
| existsSync_call (path : string)
| unlinkSync_call (path : string).

(** What the collaborators do during one request: the catalog read, the
    clock, the engine (which may touch the file system), and the
    failures of the two file operations.  [fs.writeFileSync] opens its
    target with flag [w] before it writes: a write that throws has either
    changed nothing (the open failed) or left the file created or
    truncated with the bytes written so far, [writeFileSync_residue]. *)
Record Collaborators : Type := {
  findAll_result : Outcome (list (Restaurant.t Num));
  Date_now : Z;
  engine_search :
    list (DishRecord.t Num) -> string -> option string -> option string ->
    option Z -> gmap string (list Byte.byte) ->
    Outcome AiResponse.t * gmap string (list Byte.byte);
  writeFileSync_error : string -> option Exception;
  writeFileSync_residue : string -> option (list Byte.byte);
  unlinkSync_error : string -> option Exception
}.

(** The run of a computation: its outcome, the files it leaves and the
    calls it made. *)
Record Run (A : Type) : Type := mkRun {
  outcome : Outcome A;
  files : gmap string (list Byte.byte);
  calls : list Call
}.
Arguments mkRun {A} _ _ _.
Arguments outcome {A} _.
Arguments files {A} _.
Arguments calls {A} _.

Definition M (A : Type) : Type := gmap string (list Byte.byte) -> Run A.

Definition ret {A} (a : A) : M A := fun fs => mkRun (Return a) fs [].

Definition throw {A} (e : Exception) : M A := fun fs => mkRun (Throw e) fs [].

Definition bind {A B} (m : M A) (k : A -> M B) : M B :=
  fun fs =>
    let r := m fs in
    match outcome r with
    | Return a =>
        let r' := k a (files r) in
        mkRun (outcome r') (files r') (calls r ++ calls r')
    | Throw e => mkRun (Throw e) (files r) (calls r)
    end.

(** [try { body } finally { cleanup }]: the cleanup runs whatever the
    body did; when the cleanup throws, its exception is the completion
    of the statement, otherwise the completion of the body is. *)
Definition try_finally {A} (body : M A) (cleanup : M unit) : M A :=
  fun fs =>
    let r := body fs in
    let c := cleanup (files r) in
    mkRun
      match outcome c with
      | Return _ => outcome r
      | Throw e => Throw e
      end
      (files c) (calls r ++ calls c).

Notation "x <~ m ;; k" := (bind m (fun x => k))
  (at level 100, m at next level, right associativity).

Section Operations.
Variable env : Collaborators.

Definition new_engine : M unit :=
  fun fs => mkRun (Return tt) fs [new_SupraSearchEngine].

Definition findAll : M (list (Restaurant.t Num)) :=
  fun fs => mkRun (findAll_result env) fs [findAll_call].

Definition search (restaurantData : list (DishRecord.t Num))
    (text : string) (imagePath preferences : option string)
    (limit : option Z) : M AiResponse.t :=
  fun fs =>
    let r := engine_search env restaurantData text imagePath
               preferences limit fs in
    mkRun (fst r) (snd r)
      [search_call restaurantData text imagePath preferences limit].

Definition writeFileSync (path : string) (data : list Byte.byte)
  : M unit :=
  fun fs =>
    match writeFileSync_error env path with
    | Some e =>
        mkRun (Throw e)
          match writeFileSync_residue env path with
          | Some written => <[path := written]> fs
          | None => fs
          end
          [writeFileSync_call path data]
    | None =>
        mkRun (Return tt) (<[path := data]> fs)
          [writeFileSync_call path data]
    end.

Definition existsSync (path : string) : M bool :=
  fun fs =>
    mkRun (Return (bool_decide (is_Some (fs !! path)))) fs
      [existsSync_call path].

Definition unlinkSync (path : string) : M unit :=
  fun fs =>
    match fs !! path with
    | None => mkRun (Throw (Error "ENOENT")) fs [unlinkSync_call path]
    | Some _ =>
        match unlinkSync_error env path with
        | Some e => mkRun (Throw e) fs [unlinkSync_call path]
        | None => mkRun (Return tt) (delete path fs) [unlinkSync_call path]
        end
    end.

(** [aiSearch], lines 51-101. *)
Definition aiSearch (body : AiRestaurantSearchDto.t)
  : M (list (Restaurant.t Num)) :=
  _ <~ new_engine ;;
  restaurants <~ findAll ;;
  aiResponse <~ search (dishList restaurants)
                  (AiRestaurantSearchDto.text body) None None None ;;
  ret (reconcile restaurants aiResponse).

(** [`temp_${Date.now()}_${file.originalname}`] *)
Definition tempPath (file : MulterFile.t) : string :=
  "temp_" +:+ JS.toString (Date_now env) +:+ "_"
    +:+ MulterFile.originalname file.

(** The [try] block of [aiImageSearch], lines 134-167. *)
Definition image_try (restaurants : list (Restaurant.t Num))
    (path : string) (body : ImageSearchDto.t)
  : M (list (Restaurant.t Num)) :=
  aiResponse <~ search (dishList restaurants)
                  (JS.or_string (ImageSearchDto.text body) "")
                  (Some path)
                  (Some (JS.or_string (ImageSearchDto.preferences body) ""))
                  (Some (JS.or_number (ImageSearchDto.limit body) 10)) ;;
  ret (reconcile restaurants aiResponse).

(** The [finally] block of [aiImageSearch], lines 169-172. *)
Definition image_finally (path : string) : M unit :=
  present <~ existsSync path ;;
  if (present : bool) then unlinkSync path else ret tt.

(** [aiImageSearch], lines 106-174. *)
Definition aiImageSearch (file : option MulterFile.t)
    (body : ImageSearchDto.t) : M (list (Restaurant.t Num)) :=
  match file with
  | None => throw (BadRequestException "Image file is required")
  | Some file =>
      _ <~ new_engine ;;
      restaurants <~ findAll ;;
      _ <~ writeFileSync (tempPath file) (MulterFile.buffer file) ;;
      try_finally
        (image_try restaurants (tempPath file) body)
        (image_finally (tempPath file))
  end.

(** What the engine answers, and the files it leaves, when [aiSearch]
    calls it on the catalog [restaurants]. *)
Definition text_answer (restaurants : list (Restaurant.t Num))
    (body : AiRestaurantSearchDto.t) (fs : gmap string (list Byte.byte))
  : Outcome AiResponse.t * gmap string (list Byte.byte) :=
  engine_search env (dishList restaurants)
    (AiRestaurantSearchDto.text body) None None None fs.

(** The same for [aiImageSearch], which calls the engine once the
    upload is staged. *)
Definition image_answer (restaurants : list (Restaurant.t Num))
    (file : MulterFile.t) (body : ImageSearchDto.t)
    (fs : gmap string (list Byte.byte))
  : Outcome AiResponse.t * gmap string (list Byte.byte) :=
  engine_search env (dishList restaurants)
    (JS.or_string (ImageSearchDto.text body) "")
    (Some (tempPath file))
    (Some (JS.or_string (ImageSearchDto.preferences body) ""))
    (Some (JS.or_number (ImageSearchDto.limit body) 10))
    (<[tempPath file := MulterFile.buffer file]> fs).

(** What the [try] block of [aiImageSearch] determines for the
    caller, before the [finally] block runs. *)
Definition primary_outcome (restaurants : list (Restaurant.t Num))
    (file : MulterFile.t) (body : ImageSearchDto.t)
    (fs : gmap string (list Byte.byte))
  : Outcome (list (Restaurant.t Num)) :=
  outcome (image_try restaurants (tempPath file) body
             (<[tempPath file := MulterFile.buffer file]> fs)).

End Operations.



End Handlers.

Arguments Call Num : clear implicits.
Arguments Collaborators Num : clear implicits.
Arguments Run Num A : clear implicits.
Arguments M Num A : clear implicits.
Arguments mkRun {Num A} _ _ _.
Arguments outcome {Num A} _.
Arguments files {Num A} _.
Arguments calls {Num A} _.
Arguments new_SupraSearchEngine {Num}.
Arguments findAll_call {Num}.
Arguments writeFileSync_call {Num} _ _.
Arguments existsSync_call {Num} _.
Arguments unlinkSync_call {Num} _.

(** ** The match sets as the data model words them *)



(** ** The reshaping keyed on pairs *)

Global Instance SearchResult_eq_dec : EqDecision SearchResult.t.
Proof. solve_decision. Defined.

Section PairReshaping.
Context {Num : Type}.

(** The reshaping as the data model words it, on pairs instead of joined
    texts: a restaurant is kept when some match carries its identity
    rendered as text, a dish when some match carries that text together
    with the dish's name. *)
Definition pair_matchedRestaurants (restaurants : list (Restaurant.t Num))
    (results : list SearchResult.t) : list (Restaurant.t Num) :=
  (fun r =>
     Restaurant.with_dishes r
       (filter
          (fun d =>
             SearchResult.mk (JS.toString (Restaurant.id r)) (Dish.name d)
               ∈ results)
          (Restaurant.dishes r)))
    <$> filter
          (fun r =>
             JS.toString (Restaurant.id r)
               ∈ (SearchResult.restaurant_id <$> results))
          restaurants.

End PairReshaping.

(** Where a number rendered in decimal ends inside a longer text: at the
    end of the text, or before a character that is not a decimal digit
    and, after the single digit 0, not the [x] of a hexadecimal prefix. *)
Definition ends_number (n : Z) (suffix : string) : Prop :=
  match suffix with
  | EmptyString => True
  | String c _ =>
      JS.radix_digit 10 c = None
      ∧ (n = 0 -> c ≠ "x"%char ∧ c ≠ "X"%char)
  end.

(** ** Concrete catalogs and matches *)

(** The scenario of the specification. *)
Definition restaurant_A : Restaurant.t Z :=
  Restaurant.mk 1 "Restaurant A" 1 0 0
    [Dish.mk 1 "Soup" 5; Dish.mk 2 "Salad" 4].

Definition restaurant_B : Restaurant.t Z :=
  Restaurant.mk 2 "Restaurant B" 1 0 0 [Dish.mk 1 "Soup" 6].

Definition soup_catalog : list (Restaurant.t Z) :=
  [restaurant_A; restaurant_B].

Definition soup_matches : list SearchResult.t :=
  [SearchResult.mk "1" "Soup"].

(** A catalog and a match whose key texts coincide although the match
    names another dish: ["1-x" + "-" + "Soup" = "1" + "-" + "x-Soup"]. *)
Definition dash_catalog : list (Restaurant.t Z) :=
  [Restaurant.mk 1 "Restaurant A" 1 0 0 [Dish.mk 1 "x-Soup" 5]].

Definition dash_matches : list SearchResult.t :=
  [SearchResult.mk "1-x" "Soup"].

(** A match whose identity text parses to 1 without being ["1"]. *)
Definition loose_matches : list SearchResult.t :=
  [SearchResult.mk "1abc" "Soup"].

(** A restaurant with three dishes, and an engine ranking that puts the
    third before the first and leaves the second out. *)
Definition starter : Dish.t Z := Dish.mk 1 "Starter" 7.
Definition main_course : Dish.t Z := Dish.mk 2 "Main" 15.
Definition dessert : Dish.t Z := Dish.mk 3 "Dessert" 6.

Definition restaurant_C : Restaurant.t Z :=
  Restaurant.mk 3 "Restaurant C" 2 0 0 [starter; main_course; dessert].

Definition ranked_matches : list SearchResult.t :=
  [SearchResult.mk "3" "Dessert"; SearchResult.mk "3" "Starter"].

(** An upload and collaborators for it: a catalog read that returns
    the catalog of the scenario, an engine that answers with [aiResponse]
    and leaves the files alone, a staging that succeeds, and a removal that
    fails with [unlink_error] when it is given. *)
Definition photo : MulterFile.t :=
  MulterFile.mk "photo.jpg" [Byte.xff; Byte.xd8].

Definition image_body : ImageSearchDto.t :=
  ImageSearchDto.mk (Some "soup") None None.

Definition text_body : AiRestaurantSearchDto.t :=
  AiRestaurantSearchDto.mk "soup".

Definition soup_response : AiResponse.t :=
  AiResponse.mk "success" (Some (AiResponse.mk_data soup_matches)).


Definition soup_env (aiResponse : AiResponse.t)
    (unlink_error : option Exception) : Collaborators Z :=
  {| findAll_result := Return soup_catalog;
     Date_now := 1700000000000;
     engine_search := fun _ _ _ _ _ fs => (Return aiResponse, fs);
     writeFileSync_error := fun _ => None;
     writeFileSync_residue := fun _ => None;
     unlinkSync_error := fun _ => unlink_error |}.

(** Collaborators that may fail: a catalog read, an engine call and a
    staging with given outcomes; the engine leaves the files alone and the
    removal succeeds. *)
Definition failing_env (catalog : Outcome (list (Restaurant.t Z)))
    (answer : Outcome AiResponse.t) (write_error : option Exception)
  : Collaborators Z :=
  {| findAll_result := catalog;
     Date_now := 1700000000000;
     engine_search := fun _ _ _ _ _ fs => (answer, fs);
     writeFileSync_error := fun _ => write_error;
     writeFileSync_residue := fun _ => None;
     unlinkSync_error := fun _ => None |}.

(** A staging that runs out of space after the file was created: the
    write throws and leaves the first byte of the upload behind. *)
Definition full_disk_env : Collaborators Z :=
  {| findAll_result := Return soup_catalog;
     Date_now := 1700000000000;
     engine_search := fun _ _ _ _ _ fs => (Return soup_response, fs);
     writeFileSync_error := fun _ => Some (Error "ENOSPC");
     writeFileSync_residue := fun _ => Some [Byte.xff];
     unlinkSync_error := fun _ => None |}.



(** A request that spells out its text, preferences and limit. *)
Definition explicit_body : ImageSearchDto.t :=
  ImageSearchDto.mk (Some "soup") (Some "vegan") (Some 3).

(** A restaurant that lists the same dish name twice. *)
Definition restaurant_D : Restaurant.t Z :=
  Restaurant.mk 4 "Restaurant D" 1 0 0
    [Dish.mk 1 "Soup" 5; Dish.mk 2 "Soup" 8].

(** * Properties *)

(** ** JavaScript primitives *)

Example parseInt_samples :
  JS.parseInt <$> ["1"; " 42abc"; "-7"; "0x1F"; "abc"; ""; "+"; "1-x"; "0x"; "007"]
  = [Some 1; Some 42; Some (-7); Some 31; None; None; None; Some 1; None; Some 7].
Proof. vm_compute. reflexivity. Qed.

Example toString_samples :
  JS.toString <$> [0; 7; 42; -13] = ["0"; "7"; "42"; "-13"].
Proof. vm_compute. reflexivity. Qed.

Lemma append_nil (b : string) : "" +:+ b = b.
Proof. reflexivity. Qed.

Lemma append_cons (x : ascii) (a b : string) :
  String x a +:+ b = String x (a +:+ b).
Proof. reflexivity. Qed.

Lemma includes_app (a b : string) (c : ascii) :
  JS.includes (a +:+ b) c = JS.includes a c || JS.includes b c.
Proof.
  induction a as [|c' a IH]; [done|].
  rewrite append_cons. simpl.
  destruct (decide (c' = c)); [done|apply IH].
Qed.

(** The digits of a natural number are not the minus sign. *)
Lemma pretty_N_go_no_dash (x : N) (s : string) :
  JS.includes (pretty_N_go x s) "-" = JS.includes s "-".
Proof.
  revert s. induction (N.lt_wf_0 x) as [x _ IH]; intros s.
  destruct (decide (x = 0%N)) as [->|Hx]; [by rewrite pretty_N_go_0|].
  rewrite pretty_N_go_step by lia.
  rewrite IH by (apply N.div_lt; lia).
  simpl. destruct (decide (_ = _)) as [Heq|]; [|done].
  exfalso. revert Heq. unfold pretty_N_char. by repeat case_match.
Qed.

Lemma toString_no_dash (n : Z) :
  0 <= n -> JS.includes (JS.toString n) "-" = false.
Proof.
  intros Hn. unfold JS.toString, pretty, pretty_Z.
  destruct n as [|p|p]; [done| |lia].
  unfold pretty, pretty_positive, pretty, pretty_N.
  case_decide; [done|]. apply pretty_N_go_no_dash.
Qed.

(** ** Composite keys *)

(** Two keys whose first components hold no dash are equal only when
    their components are. *)
Lemma dish_key_inj (a b c d : string) :
  JS.includes a "-" = false -> JS.includes c "-" = false ->
  dish_key a b = dish_key c d -> a = c ∧ b = d.
Proof.
  unfold dish_key. revert c.
  induction a as [|x a IH]; intros [|y c];
    repeat (rewrite append_nil || rewrite append_cons); simpl.
  - intros _ _ [= ->]. done.
  - destruct (decide (y = "-"%char)) as [->|Hy]; [done|].
    intros _ _ [= Heq _]. by subst.
  - destruct (decide (x = "-"%char)) as [->|Hx]; [done|].
    intros _ _ [= Heq _]. by subst.
  - destruct (decide (x = "-"%char)); [done|].
    destruct (decide (y = "-"%char)); [done|].
    intros Ha Hc [= -> Heq]. destruct (IH c Ha Hc Heq) as [-> ->]. done.
Qed.

Section ReconciliationFacts.
Context {Num : Type}.
Implicit Types (restaurants : list (Restaurant.t Num)).
Implicit Types (results : list SearchResult.t).
Implicit Types (r : Restaurant.t Num) (d : Dish.t Num).

Lemma elem_of_matchedRestaurantIds results (x : option Z) :
  x ∈ matchedRestaurantIds results ↔
  ∃ m, m ∈ results ∧ x = JS.parseInt (SearchResult.restaurant_id m).
Proof.
  unfold matchedRestaurantIds.
  rewrite elem_of_list_to_set, list_elem_of_fmap. naive_solver.
Qed.

Lemma elem_of_matchedDishes results (k : string) :
  k ∈ matchedDishes results ↔
  ∃ m, m ∈ results ∧
       k = dish_key (SearchResult.restaurant_id m) (SearchResult.dish_name m).
Proof.
  unfold matchedDishes.
  rewrite elem_of_list_to_set, list_elem_of_fmap. naive_solver.
Qed.

Lemma elem_of_filteredDishes (keys : gset string) r d :
  d ∈ filteredDishes keys r ↔
  d ∈ Restaurant.dishes r
  ∧ dish_key (JS.toString (Restaurant.id r)) (Dish.name d) ∈ keys.
Proof.
  unfold filteredDishes, has_key.
  rewrite list_elem_of_filter, bool_decide_spec. naive_solver.
Qed.

Lemma elem_of_matchedRestaurants restaurants results (r' : Restaurant.t Num) :
  r' ∈ matchedRestaurants restaurants results ↔
  ∃ r, r ∈ restaurants
       ∧ Some (Restaurant.id r) ∈ matchedRestaurantIds results
       ∧ r' = Restaurant.with_dishes r
                (filteredDishes (matchedDishes results) r).
Proof.
  unfold matchedRestaurants, has_id. rewrite list_elem_of_fmap.
  setoid_rewrite list_elem_of_filter.
  setoid_rewrite bool_decide_spec. naive_solver.
Qed.

Lemma matchedRestaurants_cons r restaurants results :
  matchedRestaurants (r :: restaurants) results =
  if has_id (matchedRestaurantIds results) (Restaurant.id r)
  then Restaurant.with_dishes r (filteredDishes (matchedDishes results) r)
         :: matchedRestaurants restaurants results
  else matchedRestaurants restaurants results.
Proof.
  unfold matchedRestaurants. rewrite filter_cons.
  destruct (has_id _ _) eqn:Hid; case_decide; done.
Qed.

End ReconciliationFacts.

(** ** The Catalog Projector *)

Section ProjectorFacts.
Context {Num : Type}.
Implicit Types (restaurants : list (Restaurant.t Num)).

Lemma dishList_app restaurants1 restaurants2 :
  dishList (restaurants1 ++ restaurants2) =
  dishList restaurants1 ++ dishList restaurants2.
Proof. unfold dishList. apply flat_map_app. Qed.

Lemma renders_dishes (r : Restaurant.t Num) (ds : list (Dish.t Num)) :
  Forall2 renders
    ((fun d => DishRecord.mk (JS.toString (Restaurant.id r))
                 (Restaurant.name r) (Dish.name d) (Dish.price d)) <$> ds)
    ((fun d => (r, d)) <$> ds).
Proof.
  apply Forall2_fmap, Forall_Forall2_diag, Forall_true.
  intros d. by repeat split.
Qed.

(** C3: the projector yields one flat record per dish, in catalog order:
    the number of records is the sum of the dish counts, the i-th record
    renders the i-th dish of the catalog with its owner's identity as
    text, its owner's name, the dish name and the dish price as they
    are, and a restaurant without dishes contributes no record. *)
Theorem dishList_one_record_per_dish restaurants :
  length (dishList restaurants) =
    sum_list_with (fun r => length (Restaurant.dishes r)) restaurants
  ∧ Forall2 renders (dishList restaurants) (owned_dishes restaurants)
  ∧ ∀ before (r : Restaurant.t Num) after,
      dishList (before ++ Restaurant.with_dishes r [] :: after) =
      dishList (before ++ after).
Proof.
  split; [|split].
  - induction restaurants as [|r restaurants IH]; [done|].
    change (r :: restaurants) with ([r] ++ restaurants).
    rewrite dishList_app, length_app, sum_list_with_app, IH. simpl.
    by rewrite app_nil_r, length_fmap, Nat.add_0_r.
  - induction restaurants as [|r restaurants IH]; [constructor|].
    simpl. apply Forall2_app; [apply renders_dishes|exact IH].
  - intros before r after.
    by rewrite !dishList_app.
Qed.

End ProjectorFacts.

Example dishList_soup :
  dishList soup_catalog =
  [ DishRecord.mk "1" "Restaurant A" "Soup" 5;
    DishRecord.mk "1" "Restaurant A" "Salad" 4;
    DishRecord.mk "2" "Restaurant B" "Soup" 6 ].
Proof. vm_compute. reflexivity. Qed.

(** ** The reshaping of matches *)

Example soup_scenario :
  matchedRestaurants soup_catalog soup_matches =
  [Restaurant.with_dishes restaurant_A [Dish.mk 1 "Soup" 5]].
Proof. vm_compute. reflexivity. Qed.

Section ReshapingFacts.
Context {Num : Type}.
Implicit Types (restaurants : list (Restaurant.t Num)).
Implicit Types (results : list SearchResult.t).
Implicit Types (r : Restaurant.t Num) (d : Dish.t Num).

(** A dish of the output has its key text among the key texts of the
    matches. *)
Lemma matched_dish_key restaurants results r' d :
  r' ∈ matchedRestaurants restaurants results ->
  d ∈ Restaurant.dishes r' ->
  dish_key (JS.toString (Restaurant.id r')) (Dish.name d)
    ∈ matchedDishes results.
Proof.
  rewrite elem_of_matchedRestaurants. intros (r & _ & _ & ->). simpl.
  rewrite elem_of_filteredDishes. naive_solver.
Qed.

(** C1, as amended: a dish of a restaurant is in the output only if the
    text of its key, identity then dash then dish name, is the key text
    of some match; when the restaurant's identity is not negative and no
    match's identity text holds a dash, that match names this very
    restaurant, by the decimal rendering of its identity, and this very
    dish. *)
Theorem matched_dish_names_a_match restaurants results r' d :
  r' ∈ matchedRestaurants restaurants results ->
  d ∈ Restaurant.dishes r' ->
  (∃ m, m ∈ results
        ∧ dish_key (SearchResult.restaurant_id m) (SearchResult.dish_name m)
          = dish_key (JS.toString (Restaurant.id r')) (Dish.name d))
  ∧ (0 <= Restaurant.id r' ->
     (∀ m, m ∈ results ->
           JS.includes (SearchResult.restaurant_id m) "-" = false) ->
     ∃ m, m ∈ results
          ∧ SearchResult.restaurant_id m = JS.toString (Restaurant.id r')
          ∧ SearchResult.dish_name m = Dish.name d).
Proof.
  intros Hr Hd.
  pose proof (matched_dish_key _ _ _ _ Hr Hd) as Hkey.
  apply elem_of_matchedDishes in Hkey as (m & Hm & Hkey).
  split; [by exists m|].
  intros Hid Hdash. exists m. split; [done|].
  symmetry in Hkey.
  apply dish_key_inj in Hkey; [done|by apply Hdash|by apply toString_no_dash].
Qed.

(** C10: a catalog restaurant whose identity is what [parseInt] reads
    from some match's identity text, while no match's key text is the
    key text of one of its dishes, is in the output with no dish. *)
Theorem matched_restaurant_without_dishes restaurants results r :
  r ∈ restaurants ->
  (∃ m, m ∈ results
        ∧ JS.parseInt (SearchResult.restaurant_id m)
          = Some (Restaurant.id r)) ->
  (∀ m d, m ∈ results -> d ∈ Restaurant.dishes r ->
          dish_key (SearchResult.restaurant_id m) (SearchResult.dish_name m)
          ≠ dish_key (JS.toString (Restaurant.id r)) (Dish.name d)) ->
  Restaurant.with_dishes r [] ∈ matchedRestaurants restaurants results.
Proof.
  intros Hr (m & Hm & Hparse) Hkeys.
  apply elem_of_matchedRestaurants. exists r. split; [done|]. split.
  - apply elem_of_matchedRestaurantIds. by exists m.
  - f_equal. symmetry. apply elem_of_nil_inv. intros d.
    rewrite elem_of_filteredDishes, elem_of_matchedDishes.
    intros (Hd & m' & Hm' & Heq). by apply (Hkeys m' d).
Qed.

Lemma matched_sets_same_members results results' :
  (∀ m, m ∈ results ↔ m ∈ results') ->
  matchedRestaurantIds results = matchedRestaurantIds results'
  ∧ matchedDishes results = matchedDishes results'.
Proof.
  intros Hsame. split; apply set_eq; intros x.
  - rewrite !elem_of_matchedRestaurantIds. naive_solver.
  - rewrite !elem_of_matchedDishes. naive_solver.
Qed.

Lemma filteredDishes_sublist (keys : gset string) r :
  filteredDishes keys r `sublist_of` Restaurant.dishes r.
Proof. apply sublist_filter. Qed.

(** C6: the output lists, in catalog order, the kept restaurants, each
    a copy of its catalog entry whose dishes are a sublist, in the
    original order, of the entry's dishes; permuting the engine's
    matches does not change the output; and of the dishes [d1, d2, d3]
    with [d1] and [d3] matched and [d2] not, [d1, d3] is kept. *)
Theorem matchedRestaurants_keeps_catalog_order restaurants results :
  (∃ kept, kept `sublist_of` restaurants
           ∧ Forall2
               (fun r' r =>
                  r' = Restaurant.with_dishes r (Restaurant.dishes r')
                  ∧ Restaurant.dishes r' `sublist_of` Restaurant.dishes r)
               (matchedRestaurants restaurants results) kept)
  ∧ (∀ results', results' ≡ₚ results ->
       matchedRestaurants restaurants results'
       = matchedRestaurants restaurants results)
  ∧ (∀ r d1 d2 d3,
       Restaurant.dishes r = [d1; d2; d3] ->
       let key d := dish_key (JS.toString (Restaurant.id r)) (Dish.name d) in
       key d1 ∈ matchedDishes results ->
       key d2 ∉ matchedDishes results ->
       key d3 ∈ matchedDishes results ->
       filteredDishes (matchedDishes results) r = [d1; d3]).
Proof.
  split; [|split].
  - exists (filter (fun r => has_id (matchedRestaurantIds results)
                               (Restaurant.id r)) restaurants).
    split; [apply sublist_filter|].
    unfold matchedRestaurants. apply Forall2_fmap_l.
    apply Forall_Forall2_diag, Forall_true. intros r. simpl.
    split; [done|apply filteredDishes_sublist].
  - intros results' Hperm.
    destruct (matched_sets_same_members results' results) as [Hids Hkeys].
    { intros m. by rewrite Hperm. }
    unfold matchedRestaurants. by rewrite Hids, Hkeys.
  - intros r d1 d2 d3 Hdishes key H1 H2 H3.
    unfold filteredDishes, has_key. rewrite Hdishes.
    rewrite !filter_cons, filter_nil.
    repeat case_decide;
      repeat match goal with
             | H : context [Is_true (bool_decide _)] |- _ =>
                 rewrite bool_decide_spec in H
             end;
      done.
Qed.

(** A restaurant of the output has its identity among the numbers read
    from the matches, each of its dishes has its key text among the key
    texts of the matches, and it is a catalog restaurant cut down to
    some of its dishes. *)
Lemma matchedRestaurants_sound restaurants results r' :
  r' ∈ matchedRestaurants restaurants results ->
  Some (Restaurant.id r') ∈ matchedRestaurantIds results
  ∧ (∀ d, d ∈ Restaurant.dishes r' ->
          dish_key (JS.toString (Restaurant.id r')) (Dish.name d)
            ∈ matchedDishes results)
  ∧ ∃ r, r ∈ restaurants
         ∧ r' = Restaurant.with_dishes r (Restaurant.dishes r')
         ∧ Restaurant.dishes r' ⊆ Restaurant.dishes r.
Proof.
  intros Hr'. split; [|split].
  - apply elem_of_matchedRestaurants in Hr' as (r & _ & Hid & ->). done.
  - intros d Hd. by eapply matched_dish_key.
  - apply elem_of_matchedRestaurants in Hr' as (r & Hr & _ & ->).
    exists r. split; [done|]. split; [done|]. simpl.
    apply sublist_subseteq, filteredDishes_sublist.
Qed.

End ReshapingFacts.

(** The composite key is a text, and two different pairs can have the
    same text: the match (["1-x"], ["Soup"]) keeps the dish ["x-Soup"] of
    restaurant 1, a dish that no match names. *)
Lemma dash_in_identity_matches_other_dish :
  matchedRestaurants dash_catalog dash_matches = dash_catalog
  ∧ ¬ ∃ m, m ∈ dash_matches ∧ SearchResult.dish_name m = "x-Soup".
Proof.
  split; [vm_compute; reflexivity|].
  intros (m & Hm & Hname). unfold dash_matches in Hm.
  apply list_elem_of_singleton in Hm. subst m. discriminate Hname.
Qed.

Lemma matched_dish_names_a_match_soup :
  (∃ m, m ∈ soup_matches
        ∧ dish_key (SearchResult.restaurant_id m) (SearchResult.dish_name m)
          = "1-Soup")
  ∧ ∃ m, m ∈ soup_matches
         ∧ SearchResult.restaurant_id m = "1"
         ∧ SearchResult.dish_name m = "Soup".
Proof.
  destruct (matched_dish_names_a_match soup_catalog soup_matches
              (Restaurant.with_dishes restaurant_A [Dish.mk 1 "Soup" 5])
              (Dish.mk 1 "Soup" 5)) as [Hkey Hpair].
  - vm_compute. left.
  - vm_compute. left.
  - split; [exact Hkey|]. apply Hpair.
    + vm_compute. discriminate.
    + intros m Hm. apply list_elem_of_singleton in Hm. subst m. reflexivity.
Defined.

Lemma matched_restaurant_without_dishes_loose :
  Restaurant.with_dishes restaurant_A []
    ∈ matchedRestaurants soup_catalog loose_matches.
Proof.
  apply (matched_restaurant_without_dishes soup_catalog loose_matches
           restaurant_A).
  - left.
  - exists (SearchResult.mk "1abc" "Soup"). split; [left|reflexivity].
  - intros m d Hm Hd. apply list_elem_of_singleton in Hm. subst m.
    unfold restaurant_A in Hd. simpl in Hd.
    apply elem_of_cons in Hd as [->|Hd];
      [|apply list_elem_of_singleton in Hd; subst d]; vm_compute; discriminate.
Defined.

Example loose_scenario :
  matchedRestaurants soup_catalog loose_matches =
  [Restaurant.with_dishes restaurant_A []].
Proof. vm_compute. reflexivity. Qed.

(** ** The handlers *)

Example tempPath_photo :
  tempPath (soup_env soup_response None) photo = "temp_1700000000000_photo.jpg".
Proof. vm_compute. reflexivity. Qed.

Section HandlerFacts.
Context {Num : Type}.
Variable env : Collaborators Num.
Implicit Types (restaurants : list (Restaurant.t Num)).
Implicit Types (fs : gmap string (list Byte.byte)).




(** The run of [aiSearch] once the catalog is read. *)
Lemma aiSearch_run body fs restaurants :
  findAll_result env = Return restaurants ->
  aiSearch env body fs =
  mkRun
    match fst (text_answer env restaurants body fs) with
    | Return aiResponse => Return (reconcile restaurants aiResponse)
    | Throw e => Throw e
    end
    (snd (text_answer env restaurants body fs))
    [ new_SupraSearchEngine; findAll_call;
      search_call (dishList restaurants) (AiRestaurantSearchDto.text body)
        None None None ].
Proof.
  intros Hcat.
  unfold aiSearch, bind, new_engine, findAll, search, ret, text_answer.
  simpl. rewrite Hcat. simpl.
  destruct (engine_search _ _ _ _ _ _ _) as [[aiResponse|e] fs']; simpl;
    by rewrite ?app_nil_r.
Qed.

(** The run of the [try] block. *)
Lemma image_try_run restaurants file body fs :
  image_try env restaurants (tempPath env file) body
    (<[tempPath env file := MulterFile.buffer file]> fs) =
  mkRun
    match fst (image_answer env restaurants file body fs) with
    | Return aiResponse => Return (reconcile restaurants aiResponse)
    | Throw e => Throw e
    end
    (snd (image_answer env restaurants file body fs))
    [ search_call (dishList restaurants)
        (JS.or_string (ImageSearchDto.text body) "")
        (Some (tempPath env file))
        (Some (JS.or_string (ImageSearchDto.preferences body) ""))
        (Some (JS.or_number (ImageSearchDto.limit body) 10)) ].
Proof.
  unfold image_try, bind, search, ret, image_answer. simpl.
  destruct (engine_search _ _ _ _ _ _ _) as [[aiResponse|e] fs']; simpl;
    by rewrite ?app_nil_r.
Qed.

(** The run of the [finally] block. *)
Lemma image_finally_run path fs :
  image_finally env path fs =
  match fs !! path with
  | None => mkRun (Return tt) fs [existsSync_call path]
  | Some _ =>
      match unlinkSync_error env path with
      | Some e =>
          mkRun (Throw e) fs [existsSync_call path; unlinkSync_call path]
      | None =>
          mkRun (Return tt) (delete path fs)
            [existsSync_call path; unlinkSync_call path]
      end
  end.
Proof.
  unfold image_finally, bind, existsSync, unlinkSync, ret. simpl.
  destruct (fs !! path) as [data|] eqn:Hpath; simpl.
  - rewrite Hpath. by destruct (unlinkSync_error env path).
  - done.
Qed.

(** The run of [aiImageSearch] once the catalog is read and the upload
    staged. *)
Lemma aiImageSearch_run file body fs restaurants :
  findAll_result env = Return restaurants ->
  writeFileSync_error env (tempPath env file) = None ->
  let staged := <[tempPath env file := MulterFile.buffer file]> fs in
  let t := try_finally
             (image_try env restaurants (tempPath env file) body)
             (image_finally env (tempPath env file)) staged in
  aiImageSearch env (Some file) body fs =
  mkRun (outcome t) (files t)
    ([ new_SupraSearchEngine; findAll_call;
       writeFileSync_call (tempPath env file) (MulterFile.buffer file) ]
       ++ calls t).
Proof.
  intros Hcat Hwrite staged t.
  unfold aiImageSearch, bind, new_engine, findAll, writeFileSync.
  simpl. rewrite Hcat. simpl. rewrite Hwrite. simpl. done.
Qed.

(** Outcome and files of the whole [try ... finally] statement, by what
    the engine left at the staged location and what the removal does. *)
Lemma aiImageSearch_outcome file body fs restaurants :
  findAll_result env = Return restaurants ->
  writeFileSync_error env (tempPath env file) = None ->
  let path := tempPath env file in
  let left_by_engine := snd (image_answer env restaurants file body fs) in
  let run := aiImageSearch env (Some file) body fs in
  match left_by_engine !! path with
  | None =>
      outcome run = primary_outcome env restaurants file body fs
      ∧ files run = left_by_engine
  | Some _ =>
      match unlinkSync_error env path with
      | None =>
          outcome run = primary_outcome env restaurants file body fs
          ∧ files run = delete path left_by_engine
      | Some e => outcome run = Throw e ∧ files run = left_by_engine
      end
  end.
Proof.
  intros Hcat Hwrite path left_by_engine run. subst run.
  rewrite (aiImageSearch_run _ _ _ _ Hcat Hwrite).
  cbn [outcome files]. unfold primary_outcome, try_finally.
  rewrite image_try_run. cbn [outcome files].
  rewrite image_finally_run. fold path left_by_engine.
  destruct (left_by_engine !! path); [|done].
  by destruct (unlinkSync_error env path).
Qed.

(** The calls of that run: the cleanup always asks whether the staged
    file exists, and removes it when it does. *)
Lemma aiImageSearch_calls file body fs restaurants :
  findAll_result env = Return restaurants ->
  writeFileSync_error env (tempPath env file) = None ->
  let path := tempPath env file in
  calls (aiImageSearch env (Some file) body fs) =
  [ new_SupraSearchEngine; findAll_call;
    writeFileSync_call path (MulterFile.buffer file);
    search_call (dishList restaurants)
      (JS.or_string (ImageSearchDto.text body) "")
      (Some path)
      (Some (JS.or_string (ImageSearchDto.preferences body) ""))
      (Some (JS.or_number (ImageSearchDto.limit body) 10));
    existsSync_call path ]
  ++ match snd (image_answer env restaurants file body fs) !! path with
     | Some _ => [unlinkSync_call path]
     | None => []
     end.
Proof.
  intros Hcat Hwrite path.
  rewrite (aiImageSearch_run _ _ _ _ Hcat Hwrite).
  cbn [calls]. unfold try_finally.
  rewrite image_try_run. cbn [calls files].
  rewrite image_finally_run. fold path.
  destruct (_ !! path); [|done].
  by destruct (unlinkSync_error env path).
Qed.


(** The cleanup lets the outcome of the [try] block through when it
    finds no file or removes it. *)
Lemma aiImageSearch_lets_through file body fs restaurants :
  findAll_result env = Return restaurants ->
  writeFileSync_error env (tempPath env file) = None ->
  snd (image_answer env restaurants file body fs) !! tempPath env file = None
  ∨ unlinkSync_error env (tempPath env file) = None ->
  outcome (aiImageSearch env (Some file) body fs)
  = primary_outcome env restaurants file body fs.
Proof.
  intros Hcat Hwrite Hclean.
  pose proof (aiImageSearch_outcome file body fs _ Hcat Hwrite) as Hrun.
  cbv zeta in Hrun. destruct Hclean as [Hgone|Hunlink].
  - rewrite Hgone in Hrun. tauto.
  - rewrite Hunlink in Hrun. destruct (_ !! _); tauto.
Qed.



(** C5: without an image payload the image search throws the
    client-input error at once: no call to the engine, to the catalog
    store or to the file system is made, and the files are as before. *)
Theorem aiImageSearch_requires_file body fs :
  aiImageSearch env None body fs =
  mkRun (Throw (BadRequestException "Image file is required")) fs [].
Proof. reflexivity. Qed.

(** C9: when the request gives no limit, every call of the engine made
    by the image search carries the limit 10, and the engine is called,
    with that limit, as soon as the catalog is read and the upload
    staged. *)
Theorem aiImageSearch_default_limit file body fs :
  ImageSearchDto.limit body = None ->
  (∀ data text image preferences limit,
     search_call data text image preferences limit
       ∈ calls (aiImageSearch env file body fs) ->
     limit = Some 10)
  ∧ (∀ f restaurants,
       file = Some f ->
       findAll_result env = Return restaurants ->
       writeFileSync_error env (tempPath env f) = None ->
       search_call (dishList restaurants)
         (JS.or_string (ImageSearchDto.text body) "")
         (Some (tempPath env f))
         (Some (JS.or_string (ImageSearchDto.preferences body) ""))
         (Some 10)
         ∈ calls (aiImageSearch env file body fs)).
Proof.
  intros Hlimit. split.
  - intros data text image preferences limit.
    destruct file as [f|]; [|by intros ?%elem_of_nil].
    destruct (findAll_result env) as [restaurants|e] eqn:Hcat.
    + destruct (writeFileSync_error env (tempPath env f)) as [e|] eqn:Hwrite.
      * unfold aiImageSearch, bind, new_engine, findAll, writeFileSync.
        simpl. rewrite Hcat. simpl. rewrite Hwrite. simpl.
        set_unfold. naive_solver.
      * rewrite (aiImageSearch_calls _ _ _ _ Hcat Hwrite), Hlimit.
        destruct (_ !! _); set_unfold; naive_solver.
    + unfold aiImageSearch, bind, new_engine, findAll. simpl.
      rewrite Hcat. simpl. set_unfold. naive_solver.
  - intros f restaurants -> Hcat Hwrite.
    rewrite (aiImageSearch_calls _ _ _ _ Hcat Hwrite), Hlimit.
    set_unfold. naive_solver.
Qed.

(** C7, as amended: once the upload is staged, the cleanup runs whatever
    the engine call did (answer, no match, exception), and when the
    removal itself does not fail no file is left at the staged
    location. *)
Theorem staged_file_removed file body fs restaurants :
  findAll_result env = Return restaurants ->
  writeFileSync_error env (tempPath env file) = None ->
  existsSync_call (tempPath env file)
    ∈ calls (aiImageSearch env (Some file) body fs)
  ∧ (unlinkSync_error env (tempPath env file) = None ->
     files (aiImageSearch env (Some file) body fs) !! tempPath env file
     = None).
Proof.
  intros Hcat Hwrite. split.
  - rewrite (aiImageSearch_calls _ _ _ _ Hcat Hwrite).
    set_unfold. naive_solver.
  - intros Hunlink.
    pose proof (aiImageSearch_outcome file body fs _ Hcat Hwrite) as Hrun.
    cbv zeta in Hrun. rewrite Hunlink in Hrun.
    destruct (_ !! _) eqn:Hleft; destruct Hrun as [_ ->];
      [apply lookup_delete_eq|exact Hleft].
Qed.

(** C8, as amended: the caller receives what the [try] block determined
    whenever the engine left no file at the staged location or the
    removal succeeds; when the file is there and its removal throws, the
    caller receives the removal's exception instead. *)
Theorem cleanup_failure_replaces_outcome file body fs restaurants :
  findAll_result env = Return restaurants ->
  writeFileSync_error env (tempPath env file) = None ->
  let path := tempPath env file in
  let left_by_engine := snd (image_answer env restaurants file body fs) in
  (left_by_engine !! path = None ∨ unlinkSync_error env path = None ->
   outcome (aiImageSearch env (Some file) body fs)
   = primary_outcome env restaurants file body fs)
  ∧ (∀ e, is_Some (left_by_engine !! path) ->
          unlinkSync_error env path = Some e ->
          outcome (aiImageSearch env (Some file) body fs) = Throw e).
Proof.
  intros Hcat Hwrite path left_by_engine.
  pose proof (aiImageSearch_outcome file body fs _ Hcat Hwrite) as Hrun.
  cbv zeta in Hrun. fold path left_by_engine in Hrun.
  split.
  - by apply aiImageSearch_lets_through.
  - intros e [data Hleft] Hunlink.
    rewrite Hleft, Hunlink in Hrun. tauto.
Qed.


End HandlerFacts.

(** ** The properties at concrete requests *)

Lemma keeps_catalog_order_courses :
  (∃ kept, kept `sublist_of` (soup_catalog ++ [restaurant_C])
           ∧ Forall2
               (fun r' r =>
                  r' = Restaurant.with_dishes r (Restaurant.dishes r')
                  ∧ Restaurant.dishes r' `sublist_of` Restaurant.dishes r)
               (matchedRestaurants (soup_catalog ++ [restaurant_C])
                  ranked_matches) kept)
  ∧ matchedRestaurants (soup_catalog ++ [restaurant_C])
      (reverse ranked_matches)
    = matchedRestaurants (soup_catalog ++ [restaurant_C]) ranked_matches
  ∧ filteredDishes (matchedDishes ranked_matches) restaurant_C
    = [starter; dessert].
Proof.
  destruct (matchedRestaurants_keeps_catalog_order
              (soup_catalog ++ [restaurant_C]) ranked_matches)
    as (Hkept & Hperm & Hdishes).
  split; [exact Hkept|]. split.
  - apply Hperm. vm_compute. apply perm_swap.
  - apply (Hdishes restaurant_C starter main_course dessert).
    + reflexivity.
    + apply elem_of_matchedDishes.
      exists (SearchResult.mk "3" "Starter"). split; [right; left|reflexivity].
    + rewrite elem_of_matchedDishes. intros (m & Hm & Hkey).
      apply elem_of_cons in Hm as [->|Hm];
        [|apply list_elem_of_singleton in Hm; subst m]; discriminate Hkey.
    + apply elem_of_matchedDishes.
      exists (SearchResult.mk "3" "Dessert"). split; [left|reflexivity].
Defined.

Example ranked_scenario :
  matchedRestaurants (soup_catalog ++ [restaurant_C]) ranked_matches =
  [Restaurant.with_dishes restaurant_C [starter; dessert]].
Proof. vm_compute. reflexivity. Qed.

Lemma default_limit_photo :
  search_call (dishList soup_catalog) "soup"
    (Some "temp_1700000000000_photo.jpg") (Some "") (Some 10)
    ∈ calls (aiImageSearch (soup_env soup_response None) (Some photo)
               image_body ∅)
  ∧ ∀ data text image preferences limit,
      search_call data text image preferences limit
        ∈ calls (aiImageSearch (soup_env soup_response None) (Some photo)
                   image_body ∅) ->
      limit = Some 10.
Proof.
  destruct (aiImageSearch_default_limit (soup_env soup_response None)
              (Some photo) image_body ∅ eq_refl) as [Hall Hcalled].
  split; [|exact Hall].
  apply (Hcalled photo soup_catalog); reflexivity.
Defined.

Lemma staged_file_removed_photo :
  existsSync_call "temp_1700000000000_photo.jpg"
    ∈ calls (aiImageSearch (soup_env soup_response None) (Some photo)
               image_body ∅)
  ∧ files (aiImageSearch (soup_env soup_response None) (Some photo)
             image_body ∅) !! "temp_1700000000000_photo.jpg" = None.
Proof.
  destruct (staged_file_removed (soup_env soup_response None) photo
              image_body ∅ soup_catalog eq_refl eq_refl) as [Hasked Hgone].
  split; [exact Hasked|]. apply Hgone. reflexivity.
Defined.

(** The removal fails: the upload was staged, the engine answered, and
    the staged file is still there when the request is over. *)
Lemma failed_removal_leaves_file :
  calls (aiImageSearch (soup_env soup_response (Some (Error "EPERM")))
           (Some photo) image_body ∅)
  = [ new_SupraSearchEngine; findAll_call;
      writeFileSync_call "temp_1700000000000_photo.jpg"
        [Byte.xff; Byte.xd8];
      search_call (dishList soup_catalog) "soup"
        (Some "temp_1700000000000_photo.jpg") (Some "") (Some 10);
      existsSync_call "temp_1700000000000_photo.jpg";
      unlinkSync_call "temp_1700000000000_photo.jpg" ]
  ∧ files (aiImageSearch (soup_env soup_response (Some (Error "EPERM")))
             (Some photo) image_body ∅) !! "temp_1700000000000_photo.jpg"
    = Some [Byte.xff; Byte.xd8].
Proof. split; vm_compute; reflexivity. Qed.

Lemma cleanup_outcome_photo :
  outcome (aiImageSearch (soup_env soup_response None) (Some photo)
             image_body ∅)
  = Return [Restaurant.with_dishes restaurant_A [Dish.mk 1 "Soup" 5]]
  ∧ outcome (aiImageSearch (soup_env soup_response (Some (Error "EPERM")))
               (Some photo) image_body ∅)
    = Throw (Error "EPERM").
Proof.
  split.
  - destruct (cleanup_failure_replaces_outcome (soup_env soup_response None)
                photo image_body ∅ soup_catalog eq_refl eq_refl)
      as [Hprimary _].
    rewrite Hprimary; [vm_compute; reflexivity|right; reflexivity].
  - destruct (cleanup_failure_replaces_outcome
                (soup_env soup_response (Some (Error "EPERM")))
                photo image_body ∅ soup_catalog eq_refl eq_refl)
      as [_ Hreplaced].
    apply Hreplaced; [|reflexivity].
    exists [Byte.xff; Byte.xd8]. vm_compute. reflexivity.
Defined.

(** The removal fails after a successful search: the caller gets the
    removal's exception, not the restaurants the [try] block returned. *)
Lemma failed_removal_replaces_result :
  primary_outcome (soup_env soup_response (Some (Error "EPERM")))
    soup_catalog photo image_body ∅
  = Return [Restaurant.with_dishes restaurant_A [Dish.mk 1 "Soup" 5]]
  ∧ outcome (aiImageSearch (soup_env soup_response (Some (Error "EPERM")))
               (Some photo) image_body ∅)
    = Throw (Error "EPERM").
Proof. split; vm_compute; reflexivity. Qed.




(** * Further properties of the handlers' code *)

(** ** [parseInt] after [toString] *)

Lemma append_nil_r (a : string) : a +:+ "" = a.
Proof. induction a as [|x a IH]; [done|]. by rewrite append_cons, IH. Qed.

Lemma pretty_N_go_app (x : N) (s t : string) :
  pretty_N_go x s +:+ t = pretty_N_go x (s +:+ t).
Proof.
  revert s. induction (N.lt_wf_0 x) as [x _ IH]; intros s.
  destruct (decide (x = 0%N)) as [->|Hx]; [by rewrite !pretty_N_go_0|].
  rewrite (pretty_N_go_step x s), (pretty_N_go_step x (s +:+ t)) by lia.
  rewrite IH by (apply N.div_lt; lia). by rewrite append_cons.
Qed.

Lemma radix_digit_pretty_N_char (d : N) :
  (d < 10)%N -> JS.radix_digit 10 (pretty_N_char d) = Some (Z.of_N d).
Proof.
  intros Hd.
  assert (d = 0 ∨ d = 1 ∨ d = 2 ∨ d = 3 ∨ d = 4 ∨ d = 5 ∨ d = 6 ∨ d = 7
          ∨ d = 8 ∨ d = 9)%N as Hcases by lia.
  repeat (destruct Hcases as [->|Hcases]; [reflexivity|]).
  by subst d.
Qed.

(** Quotient and remainder by ten, as the rendering uses them. *)
Lemma div_mod_ten (x : N) :
  (0 < x)%N ->
  ∃ q r, (x `div` 10 = q ∧ x `mod` 10 = r ∧ x = 10 * q + r ∧ r < 10 ∧ q < x)%N.
Proof.
  intros Hx. exists (x `div` 10)%N, (x `mod` 10)%N.
  split; [done|]. split; [done|]. split; [by apply N.div_mod|].
  split; [by apply N.mod_lt|]. by apply N.div_lt.
Qed.

(** The digits of a positive number, read back from the left. *)
Lemma parse_digits_pretty_N_go (x : N) (s : string) :
  (0 < x)%N ->
  JS.parse_digits 10 (pretty_N_go x s) None
  = JS.parse_digits 10 s (Some (Z.of_N x)).
Proof.
  revert s. induction (N.lt_wf_0 x) as [x _ IH]; intros s Hx.
  rewrite pretty_N_go_step by done.
  destruct (div_mod_ten x Hx) as (q & r & -> & -> & Hdiv & Hr & Hq).
  destruct (decide (q = 0%N)) as [->|Hpos].
  - rewrite pretty_N_go_0. cbn [JS.parse_digits].
    rewrite radix_digit_pretty_N_char by done. cbn [from_option id].
    do 2 f_equal. clear IH. lia.
  - assert (0 < q)%N as Hq0 by (by apply N.neq_0_lt_0).
    rewrite (IH q Hq _ Hq0). cbn [JS.parse_digits].
    rewrite radix_digit_pretty_N_char by done. cbn [from_option id].
    do 2 f_equal. clear IH. lia.
Qed.

(** A positive number is rendered with a leading digit other than 0. *)
Lemma pretty_N_go_head (x : N) (s : string) :
  (0 < x)%N ->
  ∃ d rest, (0 < d < 10)%N ∧ pretty_N_go x s = String (pretty_N_char d) rest.
Proof.
  revert s. induction (N.lt_wf_0 x) as [x _ IH]; intros s Hx.
  rewrite pretty_N_go_step by done.
  destruct (div_mod_ten x Hx) as (q & r & -> & -> & Hdiv & Hr & Hq).
  destruct (decide (q = 0%N)) as [->|Hpos].
  - rewrite pretty_N_go_0. exists r, s. split; [clear IH; lia|done].
  - apply IH; [done|by apply N.neq_0_lt_0].
Qed.

Lemma parseInt_leading_digit (d : N) (rest : string) :
  (0 < d < 10)%N ->
  JS.parseInt (String (pretty_N_char d) rest)
  = match JS.parse_digits 10 (String (pretty_N_char d) rest) None with
    | Some v => Some (1 * v)
    | None => None
    end
  ∧ JS.parseInt (String "-" (String (pretty_N_char d) rest))
    = match JS.parse_digits 10 (String (pretty_N_char d) rest) None with
      | Some v => Some (-1 * v)
      | None => None
      end.
Proof.
  intros Hd.
  assert (d = 1 ∨ d = 2 ∨ d = 3 ∨ d = 4 ∨ d = 5 ∨ d = 6 ∨ d = 7 ∨ d = 8
          ∨ d = 9)%N as Hcases by lia.
  repeat (destruct Hcases as [->|Hcases]; [split; reflexivity|]).
  subst d. split; reflexivity.
Qed.

Lemma parse_digits_ends (n v : Z) (suffix : string) :
  ends_number n suffix -> JS.parse_digits 10 suffix (Some v) = Some v.
Proof.
  destruct suffix as [|c suffix]; [done|].
  intros [Hdigit _]. cbn [JS.parse_digits]. by rewrite Hdigit.
Qed.

Lemma parseInt_zero (suffix : string) :
  ends_number 0 suffix -> JS.parseInt (String "0" suffix) = Some 0.
Proof.
  destruct suffix as [|c suffix]; [done|].
  intros [Hdigit Hhex]. destruct (Hhex eq_refl) as [Hx HX].
  assert (JS.parseInt (String "0" (String c suffix))
          = match JS.parse_digits 10 (String "0" (String c suffix)) None with
            | Some v => Some (1 * v)
            | None => None
            end) as ->.
  { destruct c as [[] [] [] [] [] [] [] []]; done. }
  cbn [JS.parse_digits]. change (JS.radix_digit 10 "0") with (Some 0).
  cbn [from_option id]. by rewrite Hdigit.
Qed.

Lemma parseInt_toString_app (n : Z) (suffix : string) :
  ends_number n suffix -> JS.parseInt (JS.toString n +:+ suffix) = Some n.
Proof.
  intros Hends. unfold JS.toString, pretty, pretty_Z.
  destruct n as [|p|p].
  - by apply parseInt_zero.
  - unfold pretty, pretty_positive, pretty, pretty_N.
    rewrite decide_False by done. rewrite pretty_N_go_app, append_nil.
    destruct (pretty_N_go_head (N.pos p) suffix ltac:(lia))
      as (d & rest & Hd & Hhead).
    rewrite Hhead, (proj1 (parseInt_leading_digit d rest Hd)), <-Hhead.
    rewrite parse_digits_pretty_N_go by lia.
    by rewrite (parse_digits_ends _ _ _ Hends).
  - unfold pretty, pretty_positive, pretty, pretty_N.
    rewrite decide_False by done.
    repeat (rewrite append_cons || rewrite append_nil).
    rewrite pretty_N_go_app, append_nil.
    destruct (pretty_N_go_head (N.pos p) suffix ltac:(lia))
      as (d & rest & Hd & Hhead).
    rewrite Hhead, (proj2 (parseInt_leading_digit d rest Hd)), <-Hhead.
    rewrite parse_digits_pretty_N_go by lia.
    by rewrite (parse_digits_ends _ _ _ Hends).
Qed.

(** In the model [parseInt] reads back what [toString] wrote; of the
    builtins this is so for the safe integers. *)
Lemma parseInt_toString (n : Z) : JS.parseInt (JS.toString n) = Some n.
Proof.
  rewrite <-(append_nil_r (JS.toString n)). by apply parseInt_toString_app.
Qed.


(** ** More on the reshaping of matches *)

Section MoreReshapingFacts.
Context {Num : Type}.
Implicit Types (restaurants : list (Restaurant.t Num)).
Implicit Types (results : list SearchResult.t).
Implicit Types (r : Restaurant.t Num) (d : Dish.t Num).

Lemma elem_of_dishList restaurants (rec : DishRecord.t Num) :
  rec ∈ dishList restaurants ↔
  ∃ r d, r ∈ restaurants ∧ d ∈ Restaurant.dishes r
         ∧ rec = DishRecord.mk (JS.toString (Restaurant.id r))
                   (Restaurant.name r) (Dish.name d) (Dish.price d).
Proof.
  unfold dishList. rewrite list_elem_of_In, in_flat_map. split.
  - intros (r & Hr & Hrec).
    rewrite <-list_elem_of_In in Hr. rewrite <-list_elem_of_In in Hrec.
    apply list_elem_of_fmap in Hrec as (d & -> & Hd). by exists r, d.
  - intros (r & d & Hr & Hd & ->). exists r. rewrite <-!list_elem_of_In.
    split; [done|]. apply list_elem_of_fmap. by exists d.
Qed.

(** A match that names a restaurant by its rendered identity keeps it. *)
Lemma rendered_identity_matched results r m :
  m ∈ results ->
  SearchResult.restaurant_id m = JS.toString (Restaurant.id r) ->
  Some (Restaurant.id r) ∈ matchedRestaurantIds results.
Proof.
  intros Hm Hid. apply elem_of_matchedRestaurantIds. exists m.
  split; [done|]. by rewrite Hid, parseInt_toString.
Qed.

(** X2: for a catalog whose identities are safe integers, when the
    engine echoes a record that the projector built, by its restaurant
    identity text and dish name, the output holds the restaurant of that
    record with the dish of that record. *)
Theorem echoed_record_is_returned restaurants results
    (rec : DishRecord.t Num) :
  (∀ r, r ∈ restaurants -> JS.isSafeInteger (Restaurant.id r)) ->
  rec ∈ dishList restaurants ->
  SearchResult.mk (DishRecord.restaurant_id rec) (DishRecord.dish_name rec)
    ∈ results ->
  ∃ r' d, r' ∈ matchedRestaurants restaurants results
          ∧ d ∈ Restaurant.dishes r'
          ∧ JS.toString (Restaurant.id r') = DishRecord.restaurant_id rec
          ∧ Restaurant.name r' = DishRecord.restaurant_name rec
          ∧ Dish.name d = DishRecord.dish_name rec
          ∧ Dish.price d = DishRecord.dish_price rec.
Proof.
  intros _. rewrite elem_of_dishList.
  intros (r & d & Hr & Hd & ->). simpl. intros Hm.
  exists (Restaurant.with_dishes r (filteredDishes (matchedDishes results) r)), d.
  split; [|split; [|done]].
  - apply elem_of_matchedRestaurants. exists r. split; [done|].
    split; [|done]. by eapply rendered_identity_matched.
  - simpl. apply elem_of_filteredDishes. split; [done|].
    apply elem_of_matchedDishes. by eexists.
Qed.

Lemma has_id_rendered results r :
  (∀ m, m ∈ results ->
        ∃ n, 0 <= n ∧ JS.isSafeInteger n
             ∧ SearchResult.restaurant_id m = JS.toString n) ->
  has_id (matchedRestaurantIds results) (Restaurant.id r) ->
  0 <= Restaurant.id r
  ∧ JS.toString (Restaurant.id r) ∈ (SearchResult.restaurant_id <$> results).
Proof.
  intros Hrendered. unfold has_id. rewrite bool_decide_spec.
  rewrite elem_of_matchedRestaurantIds. intros (m & Hm & Hparse).
  destruct (Hrendered m Hm) as (n & Hn & _ & Hid).
  rewrite Hid, parseInt_toString in Hparse. injection Hparse as ->.
  split; [done|]. apply list_elem_of_fmap. by exists m.
Qed.

(** X3: for a catalog whose identities are safe integers, when every
    match carries the decimal rendering of a non-negative safe integer as
    its restaurant identity, as the records given to the engine do, the
    reshaping by parsed identities and joined key texts is the reshaping
    by pairs of identity text and dish name. *)
Theorem matchedRestaurants_on_rendered_identities restaurants results :
  (∀ r, r ∈ restaurants -> JS.isSafeInteger (Restaurant.id r)) ->
  (∀ m, m ∈ results ->
        ∃ n, 0 <= n ∧ JS.isSafeInteger n
             ∧ SearchResult.restaurant_id m = JS.toString n) ->
  matchedRestaurants restaurants results
  = pair_matchedRestaurants restaurants results.
Proof.
  intros _ Hrendered. unfold matchedRestaurants, pair_matchedRestaurants.
  rewrite (list_filter_iff _
             (fun r => JS.toString (Restaurant.id r)
                         ∈ (SearchResult.restaurant_id <$> results))).
  - apply list_fmap_ext. intros i r Hi.
    apply list_elem_of_lookup_2, list_elem_of_filter in Hi as [Hid _].
    apply list_elem_of_fmap in Hid as (m0 & Hid & Hm0).
    destruct (Hrendered m0 Hm0) as (n & Hn & _ & Hn').
    rewrite Hn' in Hid. apply (inj pretty) in Hid. subst n.
    unfold filteredDishes. f_equal. apply list_filter_iff. intros d.
    unfold has_key. rewrite bool_decide_spec, elem_of_matchedDishes. split.
    + intros (m & Hm & Hkey).
      destruct (Hrendered m Hm) as (k & Hk & _ & Hk').
      apply dish_key_inj in Hkey as [Hrid Hname].
      * destruct m as [rid dname]. simpl in *. by subst.
      * by apply toString_no_dash.
      * rewrite Hk'. by apply toString_no_dash.
    + intros Hm. by eexists.
  - intros r. split.
    + intros Hid. by destruct (has_id_rendered _ _ Hrendered Hid).
    + intros Hid. apply list_elem_of_fmap in Hid as (m & Hid & Hm).
      unfold has_id. rewrite bool_decide_spec.
      by eapply rendered_identity_matched.
Qed.

Lemma filteredDishes_with_dishes (keys : gset string) r :
  filteredDishes keys (Restaurant.with_dishes r (filteredDishes keys r))
  = filteredDishes keys r.
Proof.
  unfold filteredDishes. simpl. rewrite list_filter_filter.
  apply list_filter_iff. tauto.
Qed.

(** X4: reshaping is idempotent: reshaping the output again by the same
    matches gives the output back. *)
Theorem matchedRestaurants_idempotent restaurants results :
  matchedRestaurants (matchedRestaurants restaurants results) results
  = matchedRestaurants restaurants results.
Proof.
  induction restaurants as [|r restaurants IH]; [done|].
  rewrite (matchedRestaurants_cons r).
  destruct (has_id _ (Restaurant.id r)) eqn:Hid; [|exact IH].
  rewrite matchedRestaurants_cons. simpl. rewrite Hid, IH.
  by rewrite filteredDishes_with_dishes.
Qed.

(** X5: the output depends on the matches only through the set of their
    members: repeating matches or giving them in another order changes
    nothing. *)
Theorem matchedRestaurants_same_members restaurants results results' :
  (∀ m, m ∈ results ↔ m ∈ results') ->
  matchedRestaurants restaurants results
  = matchedRestaurants restaurants results'.
Proof.
  intros Hsame.
  destruct (matched_sets_same_members results results' Hsame) as [Hids Hkeys].
  unfold matchedRestaurants. by rewrite Hids, Hkeys.
Qed.

(** X6: more matches never remove anything: each restaurant of the
    output is still there, with at least the same dishes, when matches
    are added. *)
Theorem matchedRestaurants_monotone restaurants results results'
    (r' : Restaurant.t Num) :
  results ⊆ results' ->
  r' ∈ matchedRestaurants restaurants results ->
  ∃ r'', r'' ∈ matchedRestaurants restaurants results'
         ∧ r' = Restaurant.with_dishes r'' (Restaurant.dishes r')
         ∧ Restaurant.dishes r' ⊆ Restaurant.dishes r''.
Proof.
  intros Hsub. rewrite elem_of_matchedRestaurants.
  intros (r & Hr & Hid & ->).
  exists (Restaurant.with_dishes r (filteredDishes (matchedDishes results') r)).
  split; [|split; [done|]].
  - apply elem_of_matchedRestaurants. exists r. split; [done|]. split; [|done].
    apply elem_of_matchedRestaurantIds in Hid as (m & Hm & Hid).
    apply elem_of_matchedRestaurantIds. exists m. split; [by apply Hsub|done].
  - simpl. intros d. rewrite !elem_of_filteredDishes, !elem_of_matchedDishes.
    intros (Hd & m & Hm & Hkey). split; [done|]. exists m.
    split; [by apply Hsub|done].
Qed.

(** X7: the output is empty exactly when no match's identity text is
    read by [parseInt] as the identity of a catalog restaurant; so it is
    empty for an empty match list and for an empty catalog. *)
Theorem matchedRestaurants_empty_iff restaurants results :
  (matchedRestaurants restaurants results = [] ↔
   ∀ r m, r ∈ restaurants -> m ∈ results ->
          JS.parseInt (SearchResult.restaurant_id m)
          ≠ Some (Restaurant.id r))
  ∧ matchedRestaurants restaurants [] = []
  ∧ matchedRestaurants ([] : list (Restaurant.t Num)) results = [].
Proof.
  assert (matchedRestaurants restaurants results = [] ↔
          ∀ r m, r ∈ restaurants -> m ∈ results ->
                 JS.parseInt (SearchResult.restaurant_id m)
                 ≠ Some (Restaurant.id r)) as Hiff.
  { split.
    - intros Hempty r m Hr Hm Hparse.
      assert (Restaurant.with_dishes r
                (filteredDishes (matchedDishes results) r)
                ∈ matchedRestaurants restaurants results) as Hin.
      { apply elem_of_matchedRestaurants. exists r. split; [done|].
        split; [|done]. apply elem_of_matchedRestaurantIds. by exists m. }
      rewrite Hempty in Hin. by apply elem_of_nil in Hin.
    - intros Hnone. apply elem_of_nil_inv. intros r'.
      rewrite elem_of_matchedRestaurants. intros (r & Hr & Hid & _).
      apply elem_of_matchedRestaurantIds in Hid as (m & Hm & Hid).
      by apply (Hnone r m). }
  split; [exact Hiff|]. split; [|done].
  apply elem_of_nil_inv. intros r'.
  rewrite elem_of_matchedRestaurants. intros (r & _ & Hid & _).
  apply elem_of_matchedRestaurantIds in Hid as (m & Hm & _).
  by apply elem_of_nil in Hm.
Qed.

(** X8: the dishes of one restaurant that share a name are kept or
    dropped together, whatever their prices and identities. *)
Theorem same_name_dishes_together results r d1 d2 :
  d1 ∈ Restaurant.dishes r ->
  d2 ∈ Restaurant.dishes r ->
  Dish.name d1 = Dish.name d2 ->
  d1 ∈ filteredDishes (matchedDishes results) r
  ↔ d2 ∈ filteredDishes (matchedDishes results) r.
Proof.
  intros H1 H2 Hname. rewrite !elem_of_filteredDishes, Hname. tauto.
Qed.

End MoreReshapingFacts.

(** ** The staging path *)

Lemma pretty_N_go_includes (c : ascii) (x : N) (s : string) :
  (∀ d, pretty_N_char d ≠ c) ->
  JS.includes (pretty_N_go x s) c = JS.includes s c.
Proof.
  intros Hc. revert s. induction (N.lt_wf_0 x) as [x _ IH]; intros s.
  destruct (decide (x = 0%N)) as [->|Hx]; [by rewrite pretty_N_go_0|].
  rewrite pretty_N_go_step by (by apply N.neq_0_lt_0).
  rewrite IH by (apply N.div_lt; [by apply N.neq_0_lt_0|done]).
  simpl. destruct (decide (_ = _)) as [Heq|]; [|done].
  by destruct (Hc _ Heq).
Qed.

Lemma toString_no_underscore (n : Z) :
  JS.includes (JS.toString n) "_" = false.
Proof.
  assert (∀ d, pretty_N_char d ≠ "_"%char) as Hc.
  { intros d. unfold pretty_N_char. by repeat case_match. }
  unfold JS.toString, pretty, pretty_Z.
  destruct n as [|p|p]; [done| |].
  - unfold pretty, pretty_positive, pretty, pretty_N.
    case_decide; [done|]. by rewrite pretty_N_go_includes.
  - unfold pretty, pretty_positive, pretty, pretty_N.
    rewrite includes_app. case_decide; [done|].
    by rewrite pretty_N_go_includes.
Qed.

(** Two texts cut at their first separator are equal only when both
    parts are. *)
Lemma append_sep_inj (c : ascii) (a b a' b' : string) :
  JS.includes a c = false -> JS.includes a' c = false ->
  a +:+ String c b = a' +:+ String c b' -> a = a' ∧ b = b'.
Proof.
  revert a'. induction a as [|x a IH]; intros [|y a'];
    repeat (rewrite append_nil || rewrite append_cons); simpl.
  - intros _ _ [= ->]. done.
  - destruct (decide (y = c)) as [->|Hy]; [done|].
    intros _ _ [= Heq _]. by subst.
  - destruct (decide (x = c)) as [->|Hx]; [done|].
    intros _ _ [= Heq _]. by subst.
  - destruct (decide (x = c)); [done|]. destruct (decide (y = c)); [done|].
    intros Ha Ha' [= -> Heq]. destruct (IH a' Ha Ha' Heq) as [-> ->]. done.
Qed.

Section StagingPathFacts.
Context {Num : Type}.

(** X9: two uploads are staged at the same path exactly when the clock
    reads the same and their original file names are the same. *)
Theorem tempPath_eq_iff (env env' : Collaborators Num)
    (file file' : MulterFile.t) :
  tempPath env file = tempPath env' file' ↔
  Date_now env = Date_now env'
  ∧ MulterFile.originalname file = MulterFile.originalname file'.
Proof.
  unfold tempPath. split.
  - intros Heq. apply (inj (String.append "temp_")) in Heq.
    apply append_sep_inj in Heq as [Hnow Hname];
      [|apply toString_no_underscore..].
    split; [|done]. by apply (inj pretty) in Hnow.
  - by intros [-> ->].
Qed.

End StagingPathFacts.

(** ** Failures and files in the handlers *)

Section MoreHandlerFacts.
Context {Num : Type}.
Variable env : Collaborators Num.
Implicit Types (restaurants : list (Restaurant.t Num)).
Implicit Types (fs : gmap string (list Byte.byte)).

(** X10: when the catalog read throws, both operations end with that
    very exception right after it: the engine is not called, nothing is
    staged and the files are as before. *)
Theorem catalog_failure_propagates (e : Exception) :
  findAll_result env = Throw e ->
  (∀ body fs,
     aiSearch env body fs
     = mkRun (Throw e) fs [new_SupraSearchEngine; findAll_call])
  ∧ (∀ file body fs,
       aiImageSearch env (Some file) body fs
       = mkRun (Throw e) fs [new_SupraSearchEngine; findAll_call]).
Proof.
  intros Hcat. split.
  - intros body fs. unfold aiSearch, bind, new_engine, findAll.
    simpl. by rewrite Hcat.
  - intros file body fs. unfold aiImageSearch, bind, new_engine, findAll.
    simpl. by rewrite Hcat.
Qed.

(** The run of [aiImageSearch] when the staging throws. *)
Lemma aiImageSearch_staging_fails file body fs restaurants (e : Exception) :
  findAll_result env = Return restaurants ->
  writeFileSync_error env (tempPath env file) = Some e ->
  aiImageSearch env (Some file) body fs
  = mkRun (Throw e)
      match writeFileSync_residue env (tempPath env file) with
      | Some written => <[tempPath env file := written]> fs
      | None => fs
      end
      [ new_SupraSearchEngine; findAll_call;
        writeFileSync_call (tempPath env file) (MulterFile.buffer file) ].
Proof.
  intros Hcat Hwrite.
  unfold aiImageSearch, bind, new_engine, findAll, writeFileSync.
  simpl. rewrite Hcat. simpl. by rewrite Hwrite.
Qed.

(** X11: when staging the upload throws, the image search ends with that
    exception: the engine is not called and, the write standing before
    the [try] block, no cleanup is attempted; so the files are as the
    failed write left them: unchanged when it failed to open the staging
    path, and otherwise with the created or truncated file still at the
    staging path. *)
Theorem staging_failure_propagates file body fs restaurants (e : Exception) :
  findAll_result env = Return restaurants ->
  writeFileSync_error env (tempPath env file) = Some e ->
  outcome (aiImageSearch env (Some file) body fs) = Throw e
  ∧ (writeFileSync_residue env (tempPath env file) = None ->
     files (aiImageSearch env (Some file) body fs) = fs)
  ∧ (∀ written,
       writeFileSync_residue env (tempPath env file) = Some written ->
       files (aiImageSearch env (Some file) body fs) !! tempPath env file
       = Some written
       ∧ ∀ p, p ≠ tempPath env file ->
              files (aiImageSearch env (Some file) body fs) !! p = fs !! p)
  ∧ ∀ c, c ∈ calls (aiImageSearch env (Some file) body fs) ->
         c ≠ existsSync_call (tempPath env file)
         ∧ c ≠ unlinkSync_call (tempPath env file)
         ∧ ∀ data text image preferences limit,
             c ≠ search_call data text image preferences limit.
Proof.
  intros Hcat Hwrite.
  rewrite (aiImageSearch_staging_fails _ _ _ _ _ Hcat Hwrite).
  cbn [outcome files calls].
  split; [done|]. split; [by intros ->|]. split.
  - intros written ->. split; [apply lookup_insert_eq|].
    intros p Hp. by apply lookup_insert_ne.
  - intros c Hc. set_unfold. naive_solver.
Qed.

(** X12: an exception of the engine call is not turned into an empty
    result: the text search ends with it, and so does the image search
    once its cleanup has gone through, leaving no staged file. *)
Theorem engine_failure_propagates restaurants (e : Exception) :
  findAll_result env = Return restaurants ->
  (∀ body fs,
     fst (text_answer env restaurants body fs) = Throw e ->
     outcome (aiSearch env body fs) = Throw e)
  ∧ (∀ file body fs,
       writeFileSync_error env (tempPath env file) = None ->
       fst (image_answer env restaurants file body fs) = Throw e ->
       snd (image_answer env restaurants file body fs) !! tempPath env file
       = None
       ∨ unlinkSync_error env (tempPath env file) = None ->
       outcome (aiImageSearch env (Some file) body fs) = Throw e
       ∧ files (aiImageSearch env (Some file) body fs) !! tempPath env file
         = None).
Proof.
  intros Hcat. split.
  - intros body fs Hanswer. rewrite (aiSearch_run _ _ _ _ Hcat). simpl.
    by rewrite Hanswer.
  - intros file body fs Hwrite Hanswer Hclean. split.
    + rewrite (aiImageSearch_lets_through _ _ _ _ _ Hcat Hwrite Hclean).
      unfold primary_outcome. rewrite image_try_run. simpl.
      by rewrite Hanswer.
    + pose proof (aiImageSearch_outcome env file body fs _ Hcat Hwrite)
        as Hrun.
      cbv zeta in Hrun.
      destruct (_ !! _) eqn:Hleft.
      * destruct Hclean as [?|Hunlink]; [done|]. rewrite Hunlink in Hrun.
        destruct Hrun as [_ ->]. apply lookup_delete_eq.
      * by destruct Hrun as [_ ->].
Qed.

(** X13: the image search changes the files only at the staging path:
    every other path is as the engine left it; and when the engine leaves
    the files alone and the removal succeeds, the files after the request
    are the files before it without the staging path, so unchanged when
    nothing was there. *)
Theorem image_search_files file body fs restaurants :
  findAll_result env = Return restaurants ->
  writeFileSync_error env (tempPath env file) = None ->
  let path := tempPath env file in
  let run := aiImageSearch env (Some file) body fs in
  (∀ p, p ≠ path ->
        files run !! p
        = snd (image_answer env restaurants file body fs) !! p)
  ∧ (snd (image_answer env restaurants file body fs)
     = <[path := MulterFile.buffer file]> fs ->
     unlinkSync_error env path = None ->
     files run = delete path fs
     ∧ (fs !! path = None -> files run = fs)).
Proof.
  intros Hcat Hwrite path run.
  pose proof (aiImageSearch_outcome env file body fs _ Hcat Hwrite) as Hrun.
  cbv zeta in Hrun. fold path run in Hrun. split.
  - intros p Hp.
    destruct (_ !! path); [destruct (unlinkSync_error env path)|];
      destruct Hrun as [_ ->]; [done| |done].
    by apply lookup_delete_ne.
  - intros Hleft Hunlink. rewrite Hleft, Hunlink in Hrun.
    rewrite lookup_insert_eq in Hrun. destruct Hrun as [_ Hfiles].
    rewrite delete_insert_eq in Hfiles.
    split; [done|]. intros Hfresh. by rewrite Hfiles, delete_id.
Qed.

(** X14: the text search makes no file-system call: its calls are the
    engine construction, the catalog read and one search with the
    request's text alone, and the files after it are those the engine
    left, or those before it when the catalog read throws. *)
Theorem text_search_leaves_files body fs :
  (∀ c, c ∈ calls (aiSearch env body fs) ->
        c = new_SupraSearchEngine ∨ c = findAll_call
        ∨ ∃ data, c = search_call data (AiRestaurantSearchDto.text body)
                        None None None)
  ∧ files (aiSearch env body fs)
    = match findAll_result env with
      | Return restaurants => snd (text_answer env restaurants body fs)
      | Throw _ => fs
      end.
Proof.
  destruct (findAll_result env) as [restaurants|e] eqn:Hcat.
  - rewrite (aiSearch_run _ _ _ _ Hcat). simpl. split; [|done].
    intros c Hc. set_unfold. naive_solver.
  - unfold aiSearch, bind, new_engine, findAll. simpl. rewrite Hcat. simpl.
    split; [|done]. intros c Hc. set_unfold. naive_solver.
Qed.

(** X15: a text, a preference string and a non-zero limit given in the
    request reach the engine as they are, together with the staging path
    and the projected catalog; a limit of 0 reaches it as 10. *)
Theorem explicit_arguments_reach_engine file body fs restaurants
    (text preferences : string) (limit : Z) :
  findAll_result env = Return restaurants ->
  writeFileSync_error env (tempPath env file) = None ->
  ImageSearchDto.text body = Some text ->
  ImageSearchDto.preferences body = Some preferences ->
  ImageSearchDto.limit body = Some limit ->
  search_call (dishList restaurants) text (Some (tempPath env file))
    (Some preferences) (Some (if decide (limit = 0) then 10 else limit))
    ∈ calls (aiImageSearch env (Some file) body fs).
Proof.
  intros Hcat Hwrite Htext Hprefs Hlimit.
  rewrite (aiImageSearch_calls _ _ _ _ _ Hcat Hwrite).
  rewrite Htext, Hprefs, Hlimit. unfold JS.or_string, JS.or_number.
  assert (∀ s : string, (if decide (s = "") then "" else s) = s) as Hor.
  { intros s. case_decide; by subst. }
  rewrite !Hor. set_unfold. naive_solver.
Qed.

(** X16: the file-system calls of the image search all concern the
    staging path of the request. *)
Theorem image_search_touches_staging_path_only file body fs (c : Call Num) :
  c ∈ calls (aiImageSearch env (Some file) body fs) ->
  ∀ p, (c = existsSync_call p ∨ c = unlinkSync_call p
        ∨ ∃ data, c = writeFileSync_call p data) ->
       p = tempPath env file.
Proof.
  destruct (findAll_result env) as [restaurants|e] eqn:Hcat.
  - destruct (writeFileSync_error env (tempPath env file)) as [e|] eqn:Hwrite.
    + rewrite (aiImageSearch_staging_fails _ _ _ _ _ Hcat Hwrite).
      simpl. intros Hc p. set_unfold. naive_solver.
    + rewrite (aiImageSearch_calls _ _ _ _ _ Hcat Hwrite).
      intros Hc p. destruct (_ !! _); set_unfold; naive_solver.
  - unfold aiImageSearch, bind, new_engine, findAll. simpl. rewrite Hcat.
    simpl. intros Hc p. set_unfold. naive_solver.
Qed.

End MoreHandlerFacts.


(** ** The further properties at concrete requests *)

Lemma soup_catalog_safe :
  ∀ r, r ∈ soup_catalog -> JS.isSafeInteger (Restaurant.id r).
Proof.
  intros r Hr. unfold soup_catalog in Hr.
  apply elem_of_cons in Hr as [->|Hr];
    [|apply list_elem_of_singleton in Hr; subst r];
    unfold JS.isSafeInteger; simpl; lia.
Defined.

Lemma soup_matches_rendered :
  ∀ m, m ∈ soup_matches ->
       ∃ n, 0 <= n ∧ JS.isSafeInteger n
            ∧ SearchResult.restaurant_id m = JS.toString n.
Proof.
  intros m Hm. apply list_elem_of_singleton in Hm. subst m.
  exists 1. split; [lia|]. split; [unfold JS.isSafeInteger; lia|reflexivity].
Defined.

Lemma echoed_record_is_returned_soup :
  ∃ (r' : Restaurant.t Z) d,
    r' ∈ matchedRestaurants soup_catalog [SearchResult.mk "2" "Soup"]
    ∧ d ∈ Restaurant.dishes r'
    ∧ JS.toString (Restaurant.id r') = "2"
    ∧ Restaurant.name r' = "Restaurant B"
    ∧ Dish.name d = "Soup"
    ∧ Dish.price d = 6.
Proof.
  apply (echoed_record_is_returned soup_catalog [SearchResult.mk "2" "Soup"]
           (DishRecord.mk "2" "Restaurant B" "Soup" 6)).
  - apply soup_catalog_safe.
  - vm_compute. right. right. left.
  - left.
Defined.

Lemma matchedRestaurants_on_rendered_identities_soup :
  matchedRestaurants soup_catalog soup_matches
  = pair_matchedRestaurants soup_catalog soup_matches.
Proof.
  apply matchedRestaurants_on_rendered_identities.
  - apply soup_catalog_safe.
  - apply soup_matches_rendered.
Defined.

Lemma matchedRestaurants_same_members_soup :
  matchedRestaurants soup_catalog (soup_matches ++ soup_matches)
  = matchedRestaurants soup_catalog soup_matches.
Proof.
  apply matchedRestaurants_same_members.
  intros m. rewrite elem_of_app. tauto.
Defined.

Lemma matchedRestaurants_monotone_soup :
  ∃ r'' : Restaurant.t Z,
    r'' ∈ matchedRestaurants soup_catalog
            (soup_matches ++ [SearchResult.mk "1" "Salad"])
    ∧ Restaurant.with_dishes restaurant_A [Dish.mk 1 "Soup" 5]
      = Restaurant.with_dishes r'' [Dish.mk 1 "Soup" 5]
    ∧ [Dish.mk 1 "Soup" 5] ⊆ Restaurant.dishes r''.
Proof.
  apply (matchedRestaurants_monotone soup_catalog soup_matches
           (soup_matches ++ [SearchResult.mk "1" "Salad"])
           (Restaurant.with_dishes restaurant_A [Dish.mk 1 "Soup" 5])).
  - intros m Hm. apply elem_of_app. by left.
  - vm_compute. left.
Defined.

Lemma same_name_dishes_together_soup :
  Dish.mk 1 "Soup" 5
    ∈ filteredDishes (matchedDishes [SearchResult.mk "4" "Soup"]) restaurant_D
  ↔ Dish.mk 2 "Soup" 8
      ∈ filteredDishes (matchedDishes [SearchResult.mk "4" "Soup"])
          restaurant_D.
Proof.
  apply same_name_dishes_together;
    [left|right; left|reflexivity].
Defined.

Example same_name_scenario :
  matchedRestaurants [restaurant_D] [SearchResult.mk "4" "Soup"]
  = [restaurant_D].
Proof. vm_compute. reflexivity. Qed.

Lemma catalog_failure_propagates_soup :
  aiSearch
    (failing_env (Throw (Error "ECONNREFUSED")) (Return soup_response) None)
    text_body ∅
  = mkRun (Throw (Error "ECONNREFUSED")) ∅
      [new_SupraSearchEngine; findAll_call]
  ∧ aiImageSearch
      (failing_env (Throw (Error "ECONNREFUSED")) (Return soup_response) None)
      (Some photo) image_body ∅
    = mkRun (Throw (Error "ECONNREFUSED")) ∅
        [new_SupraSearchEngine; findAll_call].
Proof.
  destruct (catalog_failure_propagates
              (failing_env (Throw (Error "ECONNREFUSED"))
                 (Return soup_response) None)
              (Error "ECONNREFUSED") eq_refl) as [Htext Himage].
  split; [apply Htext|apply Himage].
Defined.

Lemma staging_failure_propagates_photo :
  (outcome
     (aiImageSearch
        (failing_env (Return soup_catalog) (Return soup_response)
           (Some (Error "EACCES")))
        (Some photo) image_body ∅)
   = Throw (Error "EACCES")
   ∧ files
       (aiImageSearch
          (failing_env (Return soup_catalog) (Return soup_response)
             (Some (Error "EACCES")))
          (Some photo) image_body ∅)
     = ∅)
  ∧ outcome (aiImageSearch full_disk_env (Some photo) image_body ∅)
    = Throw (Error "ENOSPC")
  ∧ files (aiImageSearch full_disk_env (Some photo) image_body ∅)
      !! "temp_1700000000000_photo.jpg" = Some [Byte.xff]
  ∧ ∀ c, c ∈ calls (aiImageSearch full_disk_env (Some photo) image_body ∅) ->
         c ≠ existsSync_call "temp_1700000000000_photo.jpg"
         ∧ c ≠ unlinkSync_call "temp_1700000000000_photo.jpg"
         ∧ ∀ data text image preferences limit,
             c ≠ search_call data text image preferences limit.
Proof.
  split.
  - destruct (staging_failure_propagates
                (failing_env (Return soup_catalog) (Return soup_response)
                   (Some (Error "EACCES")))
                photo image_body ∅ soup_catalog (Error "EACCES")
                eq_refl eq_refl) as (Hout & Hsame & _).
    split; [exact Hout|]. apply Hsame. reflexivity.
  - destruct (staging_failure_propagates full_disk_env photo image_body ∅
                soup_catalog (Error "ENOSPC") eq_refl eq_refl)
      as (Hout & _ & Hleft & Hcalls).
    split; [exact Hout|]. split; [|exact Hcalls].
    destruct (Hleft [Byte.xff] eq_refl) as [Hstaged _]. exact Hstaged.
Defined.

Lemma engine_failure_propagates_soup :
  let env :=
    failing_env (Return soup_catalog) (Throw (Error "ETIMEDOUT")) None in
  outcome (aiSearch env text_body ∅) = Throw (Error "ETIMEDOUT")
  ∧ outcome (aiImageSearch env (Some photo) image_body ∅)
    = Throw (Error "ETIMEDOUT")
  ∧ files (aiImageSearch env (Some photo) image_body ∅)
      !! "temp_1700000000000_photo.jpg" = None.
Proof.
  intros env.
  destruct (engine_failure_propagates env soup_catalog (Error "ETIMEDOUT")
              eq_refl) as [Htext Himage].
  split; [by apply Htext|].
  apply (Himage photo image_body ∅); [reflexivity|reflexivity|].
  right. reflexivity.
Defined.

Lemma image_search_files_photo :
  let run :=
    aiImageSearch (soup_env soup_response None) (Some photo) image_body ∅ in
  files run !! "menu.pdf" = None
  ∧ files run = delete "temp_1700000000000_photo.jpg" ∅
  ∧ files run = ∅.
Proof.
  intros run.
  destruct (image_search_files (soup_env soup_response None) photo
              image_body ∅ soup_catalog eq_refl eq_refl) as [Hframe Hround].
  split.
  - apply (Hframe "menu.pdf"). vm_compute. discriminate.
  - destruct (Hround eq_refl eq_refl) as [Hdeleted Hsame].
    split; [exact Hdeleted|]. apply Hsame. reflexivity.
Defined.

Lemma explicit_arguments_reach_engine_photo :
  search_call (dishList soup_catalog) "soup"
    (Some "temp_1700000000000_photo.jpg") (Some "vegan") (Some 3)
    ∈ calls (aiImageSearch (soup_env soup_response None) (Some photo)
               explicit_body ∅).
Proof.
  apply (explicit_arguments_reach_engine (soup_env soup_response None)
           photo explicit_body ∅ soup_catalog "soup" "vegan" 3);
    reflexivity.
Defined.

Lemma image_search_touches_staging_path_only_photo :
  "temp_1700000000000_photo.jpg"
  = tempPath (soup_env soup_response None) photo.
Proof.
  apply (image_search_touches_staging_path_only
           (soup_env soup_response None) photo image_body ∅
           (unlinkSync_call "temp_1700000000000_photo.jpg")).
  - vm_compute. do 5 right. left.
  - right. left. reflexivity.
Defined.

(** ** The output and the match sets of the data model *)

Section MatchSetFacts.
Context {Num : Type}.
Variable env : Collaborators Num.
Implicit Types (restaurants : list (Restaurant.t Num)).
Implicit Types (results : list SearchResult.t).



End MatchSetFacts.



